(** * Cashaddr codec of edge-currency-plugins

    Shallow embedding of
    [src/common/utxobased/keymanager/bitcoincashUtils/cashAddress.ts]
    and the properties its design document states about it.

    Conventions of the embedding:
    - a JavaScript number that the code only uses as an integer is a [Z];
      the 32-bit operators [<<], [>>], [|], [&] wrap as ECMAScript says
      (module [JS]);
    - a [BN] is the non-negative integer it holds, a [Z] (module [BN]);
    - a [string] is a JavaScript string whose UTF-16 code units are all
      below 256, its characters being those code units (addresses and
      network prefixes are ASCII); [toLowerCase] keeps a string among
      these, [toUpperCase] does not, so its result is given by its code
      units;
    - a [throw] is a [Throw e], the error kinds being named after the
      taxonomy of the design document. *)

From Stdlib Require Import ZArith List String Ascii Bool Lia Btauto.
From coqutil Require Import Z.bitblast.
Import ListNotations.

Local Open Scope Z_scope.

(** ** Results of fallible code *)

Inductive Error : Type :=
| InvalidCharacter      (* base32 decode: character outside the alphabet *)
| InvalidArgument       (* convertBits, lines 63 and 83; base32 encode *)
| InvalidPadding        (* convertBits, line 90 ("InvalidState: ... padding") *)
| InvalidType           (* getTypeBits, line 130 *)
| UnsupportedHashSize   (* getHashSizeBits, line 153 *)
| MixedCase             (* cashAddressToHash, line 212 *)
| InvalidFormat         (* cashAddressToHash, line 218 *)
| InvalidChecksum       (* cashAddressToHash, lines 233 and 247 *)
| InvalidVersionByte    (* cashAddressToHash, line 256 *)
| HashSizeMismatch      (* cashAddressToHash, line 260 *)
| InvalidAddressType.   (* getType, line 270 *)

(** [Diverge] is the outcome of a loop that never ends: the [while] of
    [convertBits] when [to <= 0]. *)
Inductive outcome (A : Type) : Type :=
| Ok (a : A)
| Throw (e : Error)
| Diverge.

Arguments Ok {A} a.
Arguments Throw {A} e.
Arguments Diverge {A}.

Definition bind {A B : Type} (r : outcome A) (k : A -> outcome B) : outcome B :=
  match r with
  | Ok a => k a
  | Throw e => Throw e
  | Diverge => Diverge
  end.

Notation "x <- r ;; k" := (bind r (fun x => k))
  (at level 61, r at next level, right associativity).

(** ** The JavaScript operations the code relies on *)

Module JS.

(** ECMAScript ToInt32 on an integer. *)
Definition ToInt32 (x : Z) : Z := (x + 2 ^ 31) mod 2 ^ 32 - 2 ^ 31.

(** [x << n]: the count is taken modulo 32, the result wraps. *)
Definition shl (x n : Z) : Z :=
  ToInt32 (Z.shiftl (ToInt32 x) (Z.land n 31)).

(** [x >> n]: sign-propagating, count modulo 32. *)
Definition sar (x n : Z) : Z := Z.shiftr (ToInt32 x) (Z.land n 31).

(** [x | y] and [x & y]. *)
Definition bor (x y : Z) : Z := Z.lor (ToInt32 x) (ToInt32 y).
Definition band (x y : Z) : Z := Z.land (ToInt32 x) (ToInt32 y).

(** [s.charCodeAt(i)] for the character at that place. *)
Definition charCode (c : ascii) : Z := Z.of_N (N_of_ascii c).

(** The UTF-16 code units of a string. *)
Definition units (s : string) : list Z :=
  map charCode (list_ascii_of_string s).

(** [a === b] for two strings given by their code units. *)
Fixpoint sameUnits (a b : list Z) : bool :=
  match a, b with
  | [], [] => true
  | x :: a', y :: b' => (x =? y) && sameUnits a' b'
  | _, _ => false
  end.

(** [toLowerCase] on a code unit below 256: the letters A-Z, and the
    letters U+00C0 to U+00DE (the sign U+00D7 is none), move up by 32. *)
Definition lowerChar (c : ascii) : ascii :=
  let n := N_of_ascii c in
  if ((65 <=? n) && (n <=? 90)
      || (192 <=? n) && (n <=? 222) && negb (n =? 215))%N
  then ascii_of_N (n + 32) else c.

(** [toUpperCase] on a code unit below 256, as code units: the letters a-z,
    and the letters U+00E0 to U+00FE (the sign U+00F7 is none), move down
    by 32; U+00B5 becomes U+039C, U+00DF the two letters SS, and U+00FF
    becomes U+0178. *)
Definition upperUnits (c : ascii) : list Z :=
  let n := charCode c in
  if (97 <=? n) && (n <=? 122) then [n - 32]
  else if n =? 181 then [0x39c]
  else if n =? 223 then [83; 83]
  else if (224 <=? n) && (n <=? 254) && negb (n =? 247) then [n - 32]
  else if n =? 255 then [0x178]
  else [n].

Fixpoint mapString (f : ascii -> ascii) (s : string) : string :=
  match s with
  | EmptyString => EmptyString
  | String c s' => String (f c) (mapString f s')
  end.

Definition toLowerCase (s : string) : string := mapString lowerChar s.

Definition toUpperCase (s : string) : list Z :=
  flat_map upperUnits (list_ascii_of_string s).

(** [s.split(sep)] for a one-character separator: never the empty list. *)
Fixpoint split (sep : ascii) (s : string) : list string :=
  match s with
  | EmptyString => [EmptyString]
  | String c s' =>
      if Ascii.eqb c sep then EmptyString :: split sep s'
      else match split sep s' with
           | piece :: pieces => String c piece :: pieces
           | [] => [String c EmptyString]
           end
  end.

(** [a.slice(0, -n)]: all but the last [n] elements, [[]] when there are
    fewer. *)
Definition slice_to_last {A : Type} (a : list A) (n : nat) : list A :=
  firstn (List.length a - n) a.

End JS.

(** ** The big integers of [./bn] *)

Module BN.

(** Modelled from the spec: the big-integer helper [./bn], a module of the
    repository whose source is not at hand.  Sections 4.3 and 9 of the
    design document describe its values as exact unsigned integers and its
    operations as shifts, masks and exclusive or; a value is the [Z] it
    holds. *)
Definition t : Type := Z.

(** Modelled from the spec: [new BN(x)], the integer [x]. *)
Definition new (x : Z) : t := x.

(** Modelled from the spec: [BN.One]. *)
Definition One : t := 1.

(** Modelled from the spec: [a.shrn(n)], the checksum's [>>]. *)
Definition shrn (a : t) (n : Z) : t := Z.shiftr a n.

(** Modelled from the spec: [a.shln(n)], the checksum's shift left. *)
Definition shln (a : t) (n : Z) : t := Z.shiftl a n.

(** Modelled from the spec: [a.and(b)], the checksum's mask. *)
Definition and (a b : t) : t := Z.land a b.

(** Modelled from the spec: [a.xor(b)]. *)
Definition xor (a b : t) : t := Z.lxor a b.

(** Modelled from the spec: [a.eqn(n)], equality with a number. *)
Definition eqn (a : t) (n : Z) : bool := Z.eqb a n.

(** Modelled from the spec: [a.toNumber()]. *)
Definition toNumber (a : t) : Z := a.

End BN.

(** ** Data model *)

Inductive CashaddrTypeEnum : Type := pubkeyhash | scripthash.

(** A [Buffer] is its sequence of bytes. *)
Definition Buffer : Type := list Z.

Record BitcoinCashScriptHash : Type := mkScriptHash {
  scriptHash : Buffer;
  type : CashaddrTypeEnum
}.

(** [Buffer.from(array)]: every entry is truncated to a byte. *)
Definition Buffer_from_array (a : list Z) : Buffer :=
  map (fun v => v mod 256) a.

(** ** polymod (lines 19-45) *)

Definition GENERATOR : list BN.t :=
  map BN.new
    [0x98f2bc8e61; 0x79b76d99e2; 0xf33e5fb3c4; 0xae2eabe2a8; 0x1e4f43e470].

(** The inner loop, from index [i] on: [gens] is what is left of
    [GENERATOR] at [i]. *)
Fixpoint polymod_generators (gens : list BN.t) (i : Z) (topBits checksum : BN.t)
  : BN.t :=
  match gens with
  | [] => checksum
  | g :: gens' =>
      let D := BN.and (BN.shrn topBits i) BN.One in
      polymod_generators gens' (i + 1) topBits
        (if BN.eqn D 1 then BN.xor checksum g else checksum)
  end.

(** One turn of the outer loop. *)
Definition polymod_step (checksum : BN.t) (value : Z) : BN.t :=
  let C := BN.new 0x07ffffffff in
  let topBits := BN.shrn checksum 35 in
  let checksum := BN.and checksum C in
  let checksum := BN.xor (BN.shln checksum 5) (BN.new value) in
  polymod_generators GENERATOR 0 topBits checksum.

Definition polymod (data : list Z) : BN.t :=
  BN.xor (fold_left polymod_step data (BN.new 1)) BN.One.

(** The checksum as the design document words it (section 4.3), to be
    compared with [polymod]. *)
Definition reference_step (checksum symbol : Z) : Z :=
  let topBits := Z.shiftr checksum 35 in
  let checksum := Z.land checksum 0x07ffffffff in
  let checksum := Z.lxor (Z.shiftl checksum 5) symbol in
  let checksum := if Z.testbit topBits 0 then Z.lxor checksum 0x98f2bc8e61 else checksum in
  let checksum := if Z.testbit topBits 1 then Z.lxor checksum 0x79b76d99e2 else checksum in
  let checksum := if Z.testbit topBits 2 then Z.lxor checksum 0xf33e5fb3c4 else checksum in
  let checksum := if Z.testbit topBits 3 then Z.lxor checksum 0xae2eabe2a8 else checksum in
  let checksum := if Z.testbit topBits 4 then Z.lxor checksum 0x1e4f43e470 else checksum in
  checksum.

Fixpoint reference_polymod_from (checksum : Z) (symbols : list Z) : Z :=
  match symbols with
  | [] => Z.lxor checksum 1
  | symbol :: rest => reference_polymod_from (reference_step checksum symbol) rest
  end.

Definition reference_polymod (symbols : list Z) : Z :=
  reference_polymod_from 1 symbols.

(** ** convertBits (lines 47-95) *)

(** The [while (bits >= to)] loop of line 70.  [fuel] bounds the number of
    turns; [None] when it is used up with the loop still running. *)
Fixpoint convertBits_while (fuel : nat) (accumulator bits to mask : Z)
  (result : list Z) : option (Z * list Z) :=
  if bits >=? to then
    match fuel with
    | O => None
    | S fuel' =>
        let bits := bits - to in
        convertBits_while fuel' accumulator bits to mask
          (result ++ [JS.band (JS.sar accumulator bits) mask])
    end
  else Some (bits, result).

(** The [for] loop of line 60 from the state [(accumulator, bits, result)]. *)
Fixpoint convertBits_for (data : list Z) (from to mask : Z)
  (accumulator bits : Z) (result : list Z) : outcome (Z * Z * list Z) :=
  match data with
  | [] => Ok (accumulator, bits, result)
  | value :: data' =>
      if (value <? 0) || negb (JS.sar value from =? 0) then Throw InvalidArgument
      else
        let accumulator := JS.bor (JS.shl accumulator from) value in
        let bits := bits + from in
        match convertBits_while (Z.to_nat bits) accumulator bits to mask result with
        | None => Diverge
        | Some (bits, result) =>
            convertBits_for data' from to mask accumulator bits result
        end
  end.

(** The checks of lines 75-84 are on [NaN] and [null], which integers
    never are. *)
Definition convertBits (data : list Z) (from to : Z) (strict : option bool)
  : outcome (list Z) :=
  let strict := match strict with None => false | Some b => b end in
  let mask := JS.shl 1 to - 1 in
  st <- convertBits_for data from to mask 0 0 [] ;;
  let '(accumulator, bits, result) := st in
  if negb strict then
    if bits >? 0 then
      Ok (result ++ [JS.band (JS.shl accumulator (to - bits)) mask])
    else Ok result
  else if (bits >=? from)
          || negb (JS.band (JS.shl accumulator (to - bits)) mask =? 0)
  then Throw InvalidPadding
  else Ok result.

(** ** prefixToArray (lines 97-103) *)

Definition prefixToArray (prefix : string) : list Z :=
  map (fun c => JS.band (JS.charCode c) 31) (list_ascii_of_string prefix).

(** ** The parts of hashToCashAddress that need no alphabet *)

(** The loop of line 116 from [i = 8 - n]. *)
Fixpoint checksumToArray_loop (n : nat) (checksum : BN.t) (result : list Z)
  : list Z :=
  match n with
  | O => result
  | S n' =>
      checksumToArray_loop n' (BN.shrn checksum 5)
        (result ++ [BN.toNumber (BN.and checksum (BN.new 31))])
  end.

Definition checksumToArray (checksum : BN.t) : list Z :=
  rev (checksumToArray_loop 8 checksum []).

(** The [default] branch of line 129 needs a [type] outside the
    enumeration. *)
Definition getTypeBits (type : CashaddrTypeEnum) : outcome Z :=
  match type with
  | pubkeyhash => Ok 0
  | scripthash => Ok 8
  end.

Definition getHashSizeBits (hash : Buffer) : outcome Z :=
  let n := Z.of_nat (List.length hash) * 8 in
  if n =? 160 then Ok 0
  else if n =? 192 then Ok 1
  else if n =? 224 then Ok 2
  else if n =? 256 then Ok 3
  else if n =? 320 then Ok 4
  else if n =? 384 then Ok 5
  else if n =? 448 then Ok 6
  else if n =? 512 then Ok 7
  else Throw UnsupportedHashSize.

(** ** The local functions of cashAddressToHash *)

Definition getHashSize (versionByte : Z) : Z :=
  let n := JS.band versionByte 7 in
  if n =? 0 then 160
  else if n =? 1 then 192
  else if n =? 2 then 224
  else if n =? 3 then 256
  else if n =? 4 then 320
  else if n =? 5 then 384
  else if n =? 6 then 448
  else if n =? 7 then 512
  else 0.

Definition hasSingleCase (s : string) : bool :=
  let lowerCase := JS.toLowerCase s in
  let upperCase := JS.toUpperCase s in
  String.eqb s lowerCase || JS.sameUnits (JS.units s) upperCase.

Definition validChecksum (prefix : string) (payload : list Z) : bool :=
  let prefixData := prefixToArray prefix ++ [0] in
  BN.eqn (polymod (prefixData ++ payload)) 0.

Definition getType (versionByte : Z) : outcome CashaddrTypeEnum :=
  let n := JS.band versionByte 120 in
  if n =? 0 then Ok pubkeyhash
  else if n =? 8 then Ok scripthash
  else Throw InvalidAddressType.

(** The loop of lines 239-245: the first candidate that validates. *)
Fixpoint candidateLoop (cashAddrPrefixes : list string) (payload : list Z)
  : option string :=
  match cashAddrPrefixes with
  | [] => None
  | candidatePrefix :: rest =>
      if validChecksum candidatePrefix payload then Some candidatePrefix
      else candidateLoop rest payload
  end.

(** ** A concrete alphabet and hex reader, for the closed examples *)

(** Modelled from the spec: the alphabet of [./base32] (section 4.1), 32
    characters, each mapped to its index.  The document prints the first
    31; the last, [l], completes the Bech32 character set they are taken
    from. *)
Definition CHARSET_cashaddr : string := "qpzry9x8gf2tvdw0s3jn54khce6mua7l".

Definition hexDigit (c : ascii) : option Z :=
  let n := Z.of_N (N_of_ascii c) in
  if (48 <=? n) && (n <=? 57) then Some (n - 48)
  else if (97 <=? n) && (n <=? 102) then Some (n - 87)
  else if (65 <=? n) && (n <=? 70) then Some (n - 55)
  else None.

(** A hex reader: two hex digits per byte, up to the first pair that is
    not two hex digits. *)
Fixpoint hexBytes (s : string) : Buffer :=
  match s with
  | String h (String l rest) =>
      match hexDigit h, hexDigit l with
      | Some x, Some y => (16 * x + y) :: hexBytes rest
      | _, _ => []
      end
  | _ => []
  end.

(** ** The codec over its alphabet *)

Section Codec.

(** The alphabet of [./base32], a module of the repository whose source
    is not at hand, and the hex reader [Buffer.from(_, 'hex')] of the
    platform. *)
Variable CHARSET : string.
Variable Buffer_from_hex : string -> Buffer.

(** Index of the first occurrence of [c] in [s] from index [i] on. *)
Fixpoint indexFrom (c : ascii) (s : string) (i : Z) : option Z :=
  match s with
  | EmptyString => None
  | String c' s' => if Ascii.eqb c c' then Some i else indexFrom c s' (i + 1)
  end.

(** Modelled from the spec: [encode] of [./base32] (section 4.1):
    concatenates the characters the symbols map to.  The spec leaves a
    value outside [0, 31] to the caller's contract; here it is refused. *)
Fixpoint encode (data : list Z) : outcome string :=
  match data with
  | [] => Ok EmptyString
  | value :: data' =>
      if (0 <=? value) && (value <? 32) then
        match String.get (Z.to_nat value) CHARSET with
        | Some c => rest <- encode data' ;; Ok (String c rest)
        | None => Throw InvalidArgument
        end
      else Throw InvalidArgument
  end.

(** Modelled from the spec: [decode] of [./base32] (section 4.1): maps
    each character, whatever its case, to its index in the alphabet, and
    fails with [InvalidCharacter] on a character outside it. *)
Fixpoint decode (text : string) : outcome (list Z) :=
  match text with
  | EmptyString => Ok []
  | String c text' =>
      match indexFrom (JS.lowerChar c) CHARSET 0 with
      | Some value => rest <- decode text' ;; Ok (value :: rest)
      | None => Throw InvalidCharacter
      end
  end.

(** *** hashToCashAddress (lines 105-168) *)

(** Lines 157-160: the version byte. *)
Definition versionByteOf (hashBuffer : Buffer) (type : CashaddrTypeEnum)
  : outcome Z :=
  typeBits <- getTypeBits type ;;
  hashSizeBits <- getHashSizeBits hashBuffer ;;
  Ok (typeBits + hashSizeBits).

(** Lines 157-164: the symbols of the address, [payloadData] and the
    whole [payload]. *)
Definition payloadDataOf (scriptHash : string) (type : CashaddrTypeEnum)
  : outcome (list Z) :=
  let hashBuffer := Buffer_from_hex scriptHash in
  versionByte <- versionByteOf hashBuffer type ;;
  let arr := hashBuffer in
  convertBits ([versionByte] ++ arr) 8 5 None.

Definition payloadOf (scriptHash : string) (type : CashaddrTypeEnum)
  (cashAddrPrefix : string) : outcome (list Z) :=
  let eight0 := [0; 0; 0; 0; 0; 0; 0; 0] in
  let prefixData := prefixToArray cashAddrPrefix ++ [0] in
  payloadData <- payloadDataOf scriptHash type ;;
  let checksumData := prefixData ++ payloadData ++ eight0 in
  Ok (payloadData ++ checksumToArray (polymod checksumData)).

Definition hashToCashAddress (scriptHash : string) (type : CashaddrTypeEnum)
  (cashAddrPrefix : string) (includePrefix : option bool) : outcome string :=
  let includePrefix := match includePrefix with None => false | Some b => b end in
  payload <- payloadOf scriptHash type cashAddrPrefix ;;
  encoded <- encode payload ;;
  Ok (if includePrefix then (cashAddrPrefix ++ ":" ++ encoded)%string
      else encoded).

(** *** cashAddressToHash (lines 170-282) *)

(** Lines 211-249: the prefix the decoder settles on and the symbols of
    the payload. *)
Definition resolvePrefix (address : string) (cashAddrPrefixes : list string)
  : outcome (string * list Z) :=
  if negb (hasSingleCase address) then Throw MixedCase
  else
    let address := JS.toLowerCase address in
    let pieces := JS.split ":" address in
    if (2 <? List.length pieces)%nat then Throw InvalidFormat
    else
      let '(prefix, encodedPayload) :=
        if (List.length pieces =? 2)%nat
        then (Some (nth 0 pieces EmptyString), nth 1 pieces EmptyString)
        else (None, nth 0 pieces EmptyString) in
      payload <- decode (JS.toLowerCase encodedPayload) ;;
      match prefix with
      | Some prefix =>
          if negb (validChecksum prefix payload) then Throw InvalidChecksum
          else Ok (prefix, payload)
      | None =>
          match candidateLoop cashAddrPrefixes payload with
          | Some prefix => Ok (prefix, payload)
          | None => Throw InvalidChecksum
          end
      end.

Definition cashAddressToHash (address : string) (cashAddrPrefixes : list string)
  : outcome BitcoinCashScriptHash :=
  resolved <- resolvePrefix address cashAddrPrefixes ;;
  let '(_, payload) := resolved in
  convertedBits <- convertBits (JS.slice_to_last payload 8) 5 8 (Some true) ;;
  match convertedBits with
  | [] => Throw InvalidVersionByte
  | versionByte :: hash =>
      if negb (getHashSize versionByte =? Z.of_nat (List.length hash) * 8)
      then Throw HashSizeMismatch
      else
        type <- getType versionByte ;;
        Ok {| scriptHash := Buffer_from_array hash; type := type |}
  end.

End Codec.

(** ** Notions used in the statements *)

(** The integer a sequence of [w]-bit groups spells, first group on top. *)
Definition valueOf (w : Z) (groups : list Z) : Z :=
  fold_left (fun a v => Z.lor (Z.shiftl a w) v) groups 0.

(** [v] is a group of [w] bits. *)
Definition fitsIn (w v : Z) : Prop := 0 <= v < 2 ^ w.

(** Agreement on the 32 bits a JavaScript bit operator sees. *)
Definition low32_eq (a b : Z) : Prop :=
  forall n, 0 <= n < 32 -> Z.testbit a n = Z.testbit b n.

(** [x], with [G] added over GF(2) when [b] holds. *)
Definition cxor (b : bool) (G x : Z) : Z := if b then Z.lxor x G else x.

(** What one turn of [polymod] adds to the shifted checksum [x] for the
    five bits [topBits]. *)
Definition feedback (topBits x : Z) : Z :=
  cxor (Z.testbit topBits 4) 0x1e4f43e470
    (cxor (Z.testbit topBits 3) 0xae2eabe2a8
       (cxor (Z.testbit topBits 2) 0xf33e5fb3c4
          (cxor (Z.testbit topBits 1) 0x79b76d99e2
             (cxor (Z.testbit topBits 0) 0x98f2bc8e61 x)))).

(** All characters of [s] are ASCII. *)
Definition isASCII (s : string) : bool :=
  forallb (fun c => JS.charCode c <? 128) (list_ascii_of_string s).

(** The upper-case letter of an ASCII character. *)
Definition upperLetter (c : ascii) : ascii :=
  let n := N_of_ascii c in
  if ((97 <=? n) && (n <=? 122))%N then ascii_of_N (n - 32) else c.

(** No [":"] in [s]. *)
Definition noSeparator (s : string) : bool :=
  forallb (fun c => negb (Ascii.eqb c ":")) (list_ascii_of_string s).

Fixpoint distinct (l : list ascii) : bool :=
  match l with
  | [] => true
  | c :: l' => negb (existsb (Ascii.eqb c) l') && distinct l'
  end.

(** What the codec needs of its alphabet: 32 different characters, none an
    upper-case letter, none the separator. *)
Definition isAlphabet (s : string) : bool :=
  (String.length s =? 32)%nat
  && distinct (list_ascii_of_string s)
  && String.eqb (JS.toLowerCase s) s
  && noSeparator s.

(** The tables of section 4.4 of the design document. *)
Definition typeBits (type : CashaddrTypeEnum) : Z :=
  match type with pubkeyhash => 0 | scripthash => 8 end.

Definition sizeCode (bitLength : Z) : option Z :=
  match bitLength with
  | 160 => Some 0 | 192 => Some 1 | 224 => Some 2 | 256 => Some 3
  | 320 => Some 4 | 384 => Some 5 | 448 => Some 6 | 512 => Some 7
  | _ => None
  end.

(** * Properties *)

(** ** 32-bit operators *)

Lemma ToInt32_mod (x : Z) : JS.ToInt32 x mod 2 ^ 32 = x mod 2 ^ 32.
Proof.
  unfold JS.ToInt32.
  rewrite Zminus_mod_idemp_l.
  f_equal. lia.
Qed.

Lemma ToInt32_testbit (x n : Z) :
  0 <= n < 32 -> Z.testbit (JS.ToInt32 x) n = Z.testbit x n.
Proof.
  intros Hn.
  rewrite <- (Z.mod_pow2_bits_low (JS.ToInt32 x) 32 n) by lia.
  rewrite ToInt32_mod.
  apply Z.mod_pow2_bits_low. lia.
Qed.

Lemma ToInt32_small (x : Z) : - 2 ^ 31 <= x < 2 ^ 31 -> JS.ToInt32 x = x.
Proof.
  intros Hx. unfold JS.ToInt32.
  rewrite Z.mod_small by lia. lia.
Qed.

Lemma land_31_small (n : Z) : 0 <= n < 32 -> Z.land n 31 = n.
Proof.
  intros Hn. change 31 with (Z.ones 5).
  rewrite Z.land_ones by lia. apply Z.mod_small. simpl. lia.
Qed.

Lemma fitsIn_land (w v : Z) : 0 <= w -> fitsIn w v -> Z.land v (Z.ones w) = v.
Proof.
  intros Hw Hv. rewrite Z.land_ones by lia. apply Z.mod_small. exact Hv.
Qed.

Lemma land_ones_fitsIn (w v : Z) : 0 <= w -> fitsIn w (Z.land v (Z.ones w)).
Proof.
  intros Hw. unfold fitsIn. rewrite Z.land_ones by lia.
  apply Z.mod_pos_bound. apply Z.pow_pos_nonneg; lia.
Qed.

Lemma fitsIn_testbit_high (w v n : Z) :
  0 <= w -> fitsIn w v -> w <= n -> Z.testbit v n = false.
Proof.
  intros Hw Hv Hn. rewrite <- (fitsIn_land w v Hw Hv).
  rewrite Z.land_spec, Z.testbit_ones_nonneg by lia.
  replace (n <? w) with false by (symmetry; apply Z.ltb_ge; lia).
  apply andb_false_r.
Qed.

(** The mask of line 59 is [to] ones. *)
Lemma mask_ones (to : Z) :
  0 < to < 32 -> JS.ToInt32 (JS.shl 1 to - 1) = Z.ones to.
Proof.
  intros Hto. unfold JS.shl.
  rewrite land_31_small by lia.
  rewrite (ToInt32_small 1) by (simpl; lia).
  rewrite Z.shiftl_1_l, Z.ones_equiv.
  assert (Hp : 0 < 2 ^ to) by (apply Z.pow_pos_nonneg; lia).
  destruct (Z.eq_dec to 31) as [->|Hne].
  - reflexivity.
  - assert (Hlt : 2 ^ to <= 2 ^ 30) by (apply Z.pow_le_mono_r; lia).
    rewrite (ToInt32_small (2 ^ to)) by (simpl in *; lia).
    rewrite ToInt32_small by (simpl in *; lia). lia.
Qed.

(** What [(accumulator >> bits) & mask] reads. *)
Lemma band_sar_mask (acc N bits to : Z) :
  low32_eq acc N -> 0 < to < 32 -> 0 <= bits -> bits + to <= 32 ->
  JS.band (JS.sar acc bits) (JS.shl 1 to - 1)
  = Z.land (Z.shiftr N bits) (Z.ones to).
Proof.
  intros Hacc Hto Hbits Hsum.
  unfold JS.band. rewrite mask_ones by lia.
  unfold JS.sar. rewrite land_31_small by lia.
  apply Z.bits_inj'. intros n Hn.
  rewrite !Z.land_spec.
  destruct (Z.ltb_spec n to).
  - rewrite ToInt32_testbit by lia.
    rewrite !Z.shiftr_spec by lia.
    rewrite ToInt32_testbit by lia.
    rewrite Hacc by lia. reflexivity.
  - rewrite Z.ones_spec_high by lia.
    rewrite !andb_false_r. reflexivity.
Qed.

(** What [(accumulator << k) & mask] reads. *)
Lemma band_shl_mask (acc N k to : Z) :
  low32_eq acc N -> 0 < to < 32 -> 0 <= k < 32 ->
  JS.band (JS.shl acc k) (JS.shl 1 to - 1)
  = Z.land (Z.shiftl N k) (Z.ones to).
Proof.
  intros Hacc Hto Hk.
  unfold JS.band. rewrite mask_ones by lia.
  unfold JS.shl at 1. rewrite land_31_small by lia.
  apply Z.bits_inj'. intros n Hn.
  rewrite !Z.land_spec.
  destruct (Z.ltb_spec n to).
  - rewrite !ToInt32_testbit by lia.
    destruct (Z.ltb_spec n k).
    + rewrite !Z.shiftl_spec_low by lia. reflexivity.
    + rewrite !Z.shiftl_spec by lia.
      rewrite ToInt32_testbit by lia.
      rewrite Hacc by lia. reflexivity.
  - rewrite Z.ones_spec_high by lia.
    rewrite !andb_false_r. reflexivity.
Qed.

(** What [(accumulator << from) | value] holds. *)
Lemma bor_shl_low32 (acc N from value : Z) :
  low32_eq acc N -> 0 <= from < 32 -> fitsIn from value ->
  low32_eq (JS.bor (JS.shl acc from) value) (Z.lor (Z.shiftl N from) value).
Proof.
  intros Hacc Hfrom Hv n Hn.
  unfold JS.bor, JS.shl. rewrite land_31_small by lia.
  rewrite !Z.lor_spec, !ToInt32_testbit by lia.
  f_equal.
  destruct (Z.ltb_spec n from).
  - rewrite !Z.shiftl_spec_low by lia. reflexivity.
  - rewrite !Z.shiftl_spec by lia.
    rewrite ToInt32_testbit by lia. apply Hacc. lia.
Qed.

(** ** Groups of bits *)

Lemma valueOf_snoc (w : Z) (groups : list Z) (v : Z) :
  valueOf w (groups ++ [v]) = Z.lor (Z.shiftl (valueOf w groups) w) v.
Proof.
  unfold valueOf. rewrite fold_left_app. reflexivity.
Qed.

Lemma split_join (w X : Z) :
  0 <= w -> Z.lor (Z.shiftl (Z.shiftr X w) w) (Z.land X (Z.ones w)) = X.
Proof.
  intros Hw. Z.bitblast.
Qed.

Lemma join_high (w A x : Z) :
  0 <= w -> fitsIn w x -> Z.shiftr (Z.lor (Z.shiftl A w) x) w = A.
Proof.
  intros Hw Hx.
  apply Z.bits_inj'. intros n Hn.
  rewrite Z.shiftr_spec, Z.lor_spec, Z.shiftl_spec by lia.
  rewrite (fitsIn_testbit_high w x (n + w)) by (assumption || lia).
  rewrite orb_false_r. f_equal. lia.
Qed.

Lemma join_low (w A x : Z) :
  0 <= w -> fitsIn w x -> Z.land (Z.lor (Z.shiftl A w) x) (Z.ones w) = x.
Proof.
  intros Hw Hx.
  apply Z.bits_inj'. intros n Hn.
  rewrite Z.land_spec, Z.lor_spec.
  destruct (Z.ltb_spec n w).
  - rewrite Z.shiftl_spec_low, Z.ones_spec_low by lia.
    apply andb_true_r.
  - rewrite Z.ones_spec_high by lia.
    rewrite andb_false_r. symmetry.
    apply (fitsIn_testbit_high w); assumption.
Qed.

(** [valueOf] tells sequences of the same length apart. *)
Lemma valueOf_rev_inj (w : Z) :
  0 <= w ->
  forall l l' : list Z,
    List.length l = List.length l' ->
    Forall (fitsIn w) l -> Forall (fitsIn w) l' ->
    valueOf w (rev l) = valueOf w (rev l') -> l = l'.
Proof.
  intros Hw. induction l as [|x l IH]; intros [|x' l'] Hlen Hl Hl' Hval;
    try discriminate; [reflexivity|].
  simpl in Hval. rewrite !valueOf_snoc in Hval.
  inversion Hl as [|? ? Hx Hl0]; subst.
  inversion Hl' as [|? ? Hx' Hl0']; subst.
  assert (Hhigh : valueOf w (rev l) = valueOf w (rev l')).
  { rewrite <- (join_high w (valueOf w (rev l)) x Hw Hx).
    rewrite Hval. apply join_high; assumption. }
  assert (Hlow : x = x').
  { rewrite <- (join_low w (valueOf w (rev l)) x Hw Hx).
    rewrite Hval. apply join_low; assumption. }
  f_equal; [exact Hlow|].
  apply IH; auto.
Qed.

Lemma valueOf_inj (w : Z) (l l' : list Z) :
  0 <= w -> List.length l = List.length l' ->
  Forall (fitsIn w) l -> Forall (fitsIn w) l' ->
  valueOf w l = valueOf w l' -> l = l'.
Proof.
  intros Hw Hlen Hl Hl' Hval.
  rewrite <- (rev_involutive l), <- (rev_involutive l').
  f_equal.
  apply (valueOf_rev_inj w Hw).
  - rewrite !length_rev. exact Hlen.
  - apply Forall_rev. exact Hl.
  - apply Forall_rev. exact Hl'.
  - rewrite !rev_involutive. exact Hval.
Qed.

(** ** convertBits *)

Lemma sar_fitsIn (from value : Z) :
  0 <= from < 32 -> fitsIn from value -> JS.sar value from = 0.
Proof.
  intros Hfrom [Hlo Hhi]. unfold JS.sar.
  rewrite land_31_small by lia.
  assert (Hp : 2 ^ from <= 2 ^ 31) by (apply Z.pow_le_mono_r; lia).
  rewrite ToInt32_small by (simpl in *; lia).
  rewrite Z.shiftr_div_pow2 by lia.
  apply Z.div_small. lia.
Qed.

(** The loop of line 70 ends when [to] is positive. *)
Lemma convertBits_while_ends (to mask : Z) :
  0 < to ->
  forall (fuel : nat) (accumulator bits : Z) (result : list Z),
    bits <= Z.of_nat fuel ->
    exists r, convertBits_while fuel accumulator bits to mask result = Some r.
Proof.
  intros Hto. induction fuel as [|fuel IH]; intros acc bits res Hfuel; simpl.
  - destruct (Z.geb_spec bits to); [lia|]. eauto.
  - destruct (Z.geb_spec bits to); [|eauto].
    apply IH. lia.
Qed.

(** What the loop of line 70 keeps: [result] spells the bits of [N] above
    the [bits] lowest ones. *)
Lemma convertBits_while_spec (to : Z) :
  0 < to < 32 ->
  forall (fuel : nat) (accumulator N bits : Z) (result : list Z),
    low32_eq accumulator N ->
    0 <= bits <= 32 -> bits <= Z.of_nat fuel ->
    valueOf to result = Z.shiftr N bits ->
    Forall (fitsIn to) result ->
    exists bits' result',
      convertBits_while fuel accumulator bits to (JS.shl 1 to - 1) result
      = Some (bits', result')
      /\ 0 <= bits' < to
      /\ valueOf to result' = Z.shiftr N bits'
      /\ Forall (fitsIn to) result'
      /\ to * Z.of_nat (List.length result') + bits'
         = to * Z.of_nat (List.length result) + bits.
Proof.
  intros Hto. induction fuel as [|fuel IH];
    intros acc N bits res Hacc Hbits Hfuel Hval Hres; simpl.
  - destruct (Z.geb_spec bits to); [lia|].
    exists bits, res. repeat split; auto; lia.
  - destruct (Z.geb_spec bits to).
    + rewrite (band_sar_mask acc N (bits - to) to) by (assumption || lia).
      destruct (IH acc N (bits - to)
                  (res ++ [Z.land (Z.shiftr N (bits - to)) (Z.ones to)]))
        as (bits' & res' & Hrun & Hb' & Hval' & Hres' & Hlen');
        try assumption; try lia.
      * rewrite valueOf_snoc, Hval.
        replace (Z.shiftr N bits) with (Z.shiftr (Z.shiftr N (bits - to)) to).
        -- apply split_join. lia.
        -- rewrite Z.shiftr_shiftr by lia. f_equal. lia.
      * apply Forall_app. split; [assumption|].
        constructor; [|constructor]. apply land_ones_fitsIn. lia.
      * exists bits', res'. repeat split; try assumption; try lia.
        rewrite Hlen', length_app. simpl. lia.
    + exists bits, res. repeat split; auto; lia.
Qed.

(** What the loop of line 60 keeps. *)
Lemma convertBits_for_spec (from to : Z) :
  0 < from -> 0 < to -> from + to <= 32 ->
  forall (data : list Z) (accumulator N bits : Z) (result : list Z),
    Forall (fitsIn from) data ->
    low32_eq accumulator N ->
    0 <= bits < to ->
    valueOf to result = Z.shiftr N bits ->
    Forall (fitsIn to) result ->
    exists accumulator' bits' result',
      convertBits_for data from to (JS.shl 1 to - 1) accumulator bits result
      = Ok (accumulator', bits', result')
      /\ low32_eq accumulator'
           (fold_left (fun a v => Z.lor (Z.shiftl a from) v) data N)
      /\ 0 <= bits' < to
      /\ valueOf to result'
         = Z.shiftr (fold_left (fun a v => Z.lor (Z.shiftl a from) v) data N) bits'
      /\ Forall (fitsIn to) result'
      /\ to * Z.of_nat (List.length result') + bits'
         = to * Z.of_nat (List.length result) + bits
           + from * Z.of_nat (List.length data).
Proof.
  intros Hfrom Hto Hsum.
  induction data as [|value data IH];
    intros acc N bits res Hdata Hacc Hbits Hval Hres.
  - exists acc, bits, res. simpl. repeat split; auto; lia.
  - inversion Hdata as [|? ? Hv Hdata']; subst.
    cbn [convertBits_for fold_left].
    replace (value <? 0) with false by (symmetry; apply Z.ltb_ge; apply Hv).
    rewrite sar_fitsIn by (assumption || lia).
    cbn [Z.eqb negb orb].
    set (N1 := Z.lor (Z.shiftl N from) value).
    assert (Hacc1 : low32_eq (JS.bor (JS.shl acc from) value) N1)
      by (apply bor_shl_low32; (assumption || lia)).
    destruct (convertBits_while_spec to ltac:(lia) (Z.to_nat (bits + from))
                (JS.bor (JS.shl acc from) value) N1 (bits + from) res)
      as (bits1 & res1 & Hrun & Hb1 & Hval1 & Hres1 & Hlen1);
      try assumption; try lia.
    { rewrite Hval. unfold N1.
      replace (bits + from) with (from + bits) by lia.
      rewrite <- Z.shiftr_shiftr by lia.
      rewrite join_high by (assumption || lia). reflexivity. }
    rewrite Hrun.
    destruct (IH (JS.bor (JS.shl acc from) value) N1 bits1 res1)
      as (acc' & bits' & res' & Hrun' & Hacc' & Hb' & Hval' & Hres' & Hlen');
      try assumption.
    exists acc', bits', res'. repeat split; try assumption; try lia.
    rewrite Hlen', Hlen1. cbn [List.length]. lia.
Qed.

(** [convertBits] in terms of the integer the input spells: [bits] bits are
    left over, [result] spells the others. *)
Lemma convertBits_spec (data : list Z) (from to : Z) :
  0 < from -> 0 < to -> from + to <= 32 ->
  Forall (fitsIn from) data ->
  exists bits result,
    0 <= bits < to
    /\ to * Z.of_nat (List.length result) + bits
       = from * Z.of_nat (List.length data)
    /\ valueOf to result = Z.shiftr (valueOf from data) bits
    /\ Forall (fitsIn to) result
    /\ forall strict,
        convertBits data from to strict
        = let padded :=
            Z.land (Z.shiftl (valueOf from data) (to - bits)) (Z.ones to) in
          if negb (match strict with None => false | Some b => b end) then
            if bits >? 0 then Ok (result ++ [padded]) else Ok result
          else if (bits >=? from) || negb (padded =? 0)
               then Throw InvalidPadding
               else Ok result.
Proof.
  intros Hfrom Hto Hsum Hdata.
  destruct (convertBits_for_spec from to Hfrom Hto Hsum data 0 0 0 [])
    as (acc & bits & res & Hrun & Hacc & Hbits & Hval & Hres & Hlen);
    try assumption; try lia.
  { intros n Hn. reflexivity. }
  { reflexivity. }
  { constructor. }
  fold (valueOf from data) in Hacc, Hval.
  exists bits, res. repeat split; try assumption; try lia.
  { cbn [List.length] in Hlen. lia. }
  intros strict. unfold convertBits. rewrite Hrun. cbn [bind].
  rewrite (band_shl_mask acc (valueOf from data) (to - bits) to)
    by (assumption || lia).
  reflexivity.
Qed.

Lemma pad_low_bits (V bits to : Z) :
  0 <= bits <= to ->
  Z.land (Z.shiftl V (to - bits)) (Z.ones to)
  = Z.shiftl (Z.land V (Z.ones bits)) (to - bits).
Proof.
  intros Hb.
  apply Z.bits_inj'. intros n Hn.
  rewrite Z.land_spec.
  destruct (Z.ltb_spec n (to - bits)).
  - rewrite !Z.shiftl_spec_low by lia. reflexivity.
  - rewrite !Z.shiftl_spec by lia. rewrite Z.land_spec.
    f_equal.
    destruct (Z.ltb_spec n to).
    + rewrite !Z.ones_spec_low by lia. reflexivity.
    + rewrite !Z.ones_spec_high by lia. reflexivity.
Qed.

(** Without [strict], the output spells the input, padded with zeros. *)
Lemma convertBits_lenient (data : list Z) (from to : Z) :
  0 < from -> 0 < to -> from + to <= 32 ->
  Forall (fitsIn from) data ->
  exists pad symbols,
    convertBits data from to None = Ok symbols
    /\ 0 <= pad < to
    /\ to * Z.of_nat (List.length symbols)
       = from * Z.of_nat (List.length data) + pad
    /\ valueOf to symbols = Z.shiftl (valueOf from data) pad
    /\ Forall (fitsIn to) symbols.
Proof.
  intros Hfrom Hto Hsum Hdata.
  destruct (convertBits_spec data from to Hfrom Hto Hsum Hdata)
    as (bits & res & Hbits & Hlen & Hval & Hres & Hrun).
  rewrite (Hrun None). cbn [negb].
  destruct (Z.gtb_spec bits 0).
  - exists (to - bits), (res ++ [Z.land (Z.shiftl (valueOf from data) (to - bits)) (Z.ones to)]).
    repeat split; try lia.
    + rewrite length_app. cbn [List.length]. lia.
    + rewrite valueOf_snoc, Hval.
      apply Z.bits_inj'. intros n Hn.
      rewrite Z.lor_spec, Z.land_spec.
      destruct (Z.ltb_spec n to).
      * rewrite Z.shiftl_spec_low by lia.
        rewrite Z.ones_spec_low by lia.
        rewrite andb_true_r. reflexivity.
      * rewrite Z.ones_spec_high by lia.
        rewrite andb_false_r, orb_false_r.
        rewrite !Z.shiftl_spec by lia.
        rewrite Z.shiftr_spec by lia.
        f_equal. lia.
    + apply Forall_app. split; [assumption|].
      constructor; [|constructor]. apply land_ones_fitsIn. lia.
  - exists 0, res.
    assert (bits = 0) by lia. subst bits.
    repeat split; try assumption; try lia.
Qed.

(** Regrouping to narrower groups and back, strictly, gives the input. *)
Lemma convertBits_roundtrip (data : list Z) (from to : Z) :
  0 < to <= from -> from + to <= 32 ->
  Forall (fitsIn from) data ->
  exists symbols,
    convertBits data from to None = Ok symbols
    /\ Forall (fitsIn to) symbols
    /\ convertBits symbols to from (Some true) = Ok data.
Proof.
  intros Hto Hsum Hdata.
  destruct (convertBits_lenient data from to) as
    (pad & symbols & Hrun & Hpad & Hlen & Hval & Hsym);
    try assumption; try lia.
  exists symbols. repeat split; try assumption.
  destruct (convertBits_spec symbols to from) as
    (bits & res & Hbits & Hlen' & Hval' & Hres & Hrun');
    try assumption; try lia.
  rewrite (Hrun' (Some true)). cbn [negb].
  assert (Hb : bits = pad /\ List.length res = List.length data).
  { rewrite Hlen in Hlen'.
    assert (Z.of_nat (List.length res) = Z.of_nat (List.length data)).
    { destruct (Z.lt_trichotomy (Z.of_nat (List.length res))
                                (Z.of_nat (List.length data))) as [Hlt|[Heq|Hgt]];
        [exfalso|exact Heq|exfalso].
      - assert (from * (Z.of_nat (List.length res) + 1)
                <= from * Z.of_nat (List.length data))
          by (apply Z.mul_le_mono_nonneg_l; lia).
        lia.
      - assert (from * (Z.of_nat (List.length data) + 1)
                <= from * Z.of_nat (List.length res))
          by (apply Z.mul_le_mono_nonneg_l; lia).
        lia. }
    split; [|lia].
    replace (Z.of_nat (List.length res)) with (Z.of_nat (List.length data)) in Hlen'.
    lia. }
  destruct Hb as [-> Hlenres].
  assert (Hpadded :
    Z.land (Z.shiftl (valueOf to symbols) (from - pad)) (Z.ones from) = 0).
  { rewrite Hval.
    apply Z.bits_inj'. intros n Hn.
    rewrite Z.land_spec, Z.bits_0.
    destruct (Z.ltb_spec n from).
    - destruct (Z.ltb_spec n (from - pad)).
      + rewrite Z.shiftl_spec_low by lia. reflexivity.
      + rewrite Z.shiftl_spec by lia.
        rewrite Z.shiftl_spec_low by lia. reflexivity.
    - rewrite Z.ones_spec_high by lia. apply andb_false_r. }
  rewrite Hpadded.
  destruct (Z.geb_spec pad to); [lia|].
  cbn [Z.eqb negb orb].
  f_equal.
  apply (valueOf_inj from); try assumption; try lia.
  rewrite Hval', Hval.
  rewrite Z.shiftr_shiftl_l by lia.
  rewrite Z.sub_diag. apply Z.shiftl_0_r.
Qed.

(** ** polymod *)

Lemma generator_bit (topBits i : Z) :
  BN.eqn (BN.and (BN.shrn topBits i) BN.One) 1 = Z.testbit topBits i.
Proof.
  unfold BN.eqn, BN.and, BN.shrn, BN.One.
  rewrite Z.testbit_odd.
  change 1 with (Z.ones 1) at 1.
  rewrite Z.land_ones by lia.
  change (2 ^ 1) with 2. rewrite Zmod_odd.
  destruct (Z.odd (Z.shiftr topBits i)); reflexivity.
Qed.

Lemma polymod_step_reference (checksum value : Z) :
  polymod_step checksum value = reference_step checksum value.
Proof.
  unfold polymod_step, reference_step, GENERATOR.
  cbn [map polymod_generators].
  rewrite !generator_bit.
  reflexivity.
Qed.

Lemma polymod_reference_from (data : list Z) :
  forall checksum,
    BN.xor (fold_left polymod_step data checksum) BN.One
    = reference_polymod_from checksum data.
Proof.
  induction data as [|value data IH]; intros checksum; simpl.
  - reflexivity.
  - rewrite IH, polymod_step_reference. reflexivity.
Qed.

(** C3. [polymod] is the checksum of section 4.3 of the design document:
    from 1, each symbol takes the top bits [checksum >> 35], masks the
    checksum with 0x07ffffffff, shifts it left by 5, adds the symbol and
    the generators that the top bits select; the outcome is the last
    checksum with its lowest bit flipped. *)
Theorem polymod_is_reference_checksum :
  forall data : list Z, polymod data = reference_polymod data.
Proof.
  intros data. unfold polymod, reference_polymod.
  apply polymod_reference_from.
Qed.

(** *** The checksum is linear over GF(2) *)

Ltac xor_bits :=
  apply Z.bits_inj'; intros ?n ?Hn;
  repeat (rewrite Z.lxor_spec || rewrite Z.land_spec);
  rewrite ?Z.bits_0; btauto.

Lemma land_lxor_l (a b c : Z) :
  Z.land (Z.lxor a b) c = Z.lxor (Z.land a c) (Z.land b c).
Proof. xor_bits. Qed.

Lemma lxor_fitsIn (w a b : Z) :
  0 <= w -> fitsIn w a -> fitsIn w b -> fitsIn w (Z.lxor a b).
Proof.
  intros Hw Ha Hb.
  rewrite <- (fitsIn_land w a Hw Ha), <- (fitsIn_land w b Hw Hb).
  rewrite <- land_lxor_l. apply land_ones_fitsIn. exact Hw.
Qed.

Lemma fitsIn_mono (w w' x : Z) : w <= w' -> fitsIn w x -> fitsIn w' x.
Proof.
  intros Hw [Hlo Hhi]. split; [exact Hlo|].
  destruct (Z.ltb_spec w 0).
  - rewrite Z.pow_neg_r in Hhi by lia. lia.
  - assert (2 ^ w <= 2 ^ w') by (apply Z.pow_le_mono_r; lia). lia.
Qed.

Lemma shiftl_fitsIn (w k x : Z) :
  0 <= w -> 0 <= k -> fitsIn w x -> fitsIn (w + k) (Z.shiftl x k).
Proof.
  intros Hw Hk [Hlo Hhi]. unfold fitsIn.
  rewrite Z.shiftl_mul_pow2, Z.pow_add_r by lia.
  assert (0 < 2 ^ k) by (apply Z.pow_pos_nonneg; lia).
  split; [apply Z.mul_nonneg_nonneg; lia|].
  apply Z.mul_lt_mono_pos_r; lia.
Qed.

Lemma shiftr_fitsIn (w k x : Z) :
  0 <= w -> 0 <= k -> fitsIn (w + k) x -> fitsIn w (Z.shiftr x k).
Proof.
  intros Hw Hk [Hlo Hhi]. unfold fitsIn.
  rewrite Z.shiftr_div_pow2 by lia.
  assert (0 < 2 ^ k) by (apply Z.pow_pos_nonneg; lia).
  split; [apply Z.div_pos; lia|].
  apply Z.div_lt_upper_bound; [lia|].
  rewrite Z.pow_add_r in Hhi by lia. lia.
Qed.

Lemma cxor_out (b : bool) (G x : Z) : cxor b G x = Z.lxor x (cxor b G 0).
Proof.
  destruct b; unfold cxor.
  - rewrite Z.lxor_0_l. reflexivity.
  - rewrite Z.lxor_0_r. reflexivity.
Qed.

Lemma cxor_xorb (p q : bool) (G x y : Z) :
  cxor (xorb p q) G (Z.lxor x y) = Z.lxor (cxor p G x) (cxor q G y).
Proof.
  destruct p, q; unfold cxor; cbn [xorb]; xor_bits.
Qed.

Lemma cxor_fitsIn (w : Z) (b : bool) (G x : Z) :
  0 <= w -> fitsIn w G -> fitsIn w x -> fitsIn w (cxor b G x).
Proof.
  intros Hw HG Hx. destruct b; unfold cxor; [|exact Hx].
  apply lxor_fitsIn; assumption.
Qed.

Lemma polymod_step_feedback (checksum value : Z) :
  polymod_step checksum value
  = feedback (Z.shiftr checksum 35)
      (Z.lxor (Z.shiftl (Z.land checksum (Z.ones 35)) 5) value).
Proof.
  rewrite polymod_step_reference. reflexivity.
Qed.

Lemma feedback_out (topBits x : Z) :
  feedback topBits x = Z.lxor x (feedback topBits 0).
Proof.
  unfold feedback.
  rewrite (cxor_out _ _ (cxor _ _ (cxor _ _ (cxor _ _ (cxor _ _ x))))).
  rewrite (cxor_out _ _ (cxor _ _ (cxor _ _ (cxor _ _ x)))).
  rewrite (cxor_out _ _ (cxor _ _ (cxor _ _ x))).
  rewrite (cxor_out _ _ (cxor _ _ x)).
  rewrite (cxor_out _ _ x).
  rewrite (cxor_out _ _ (cxor _ _ (cxor _ _ (cxor _ _ (cxor _ _ 0))))).
  rewrite (cxor_out _ _ (cxor _ _ (cxor _ _ (cxor _ _ 0)))).
  rewrite (cxor_out _ _ (cxor _ _ (cxor _ _ 0))).
  rewrite (cxor_out _ _ (cxor _ _ 0)).
  rewrite !Z.lxor_assoc. reflexivity.
Qed.

Lemma feedback_lxor (t t' x y : Z) :
  feedback (Z.lxor t t') (Z.lxor x y)
  = Z.lxor (feedback t x) (feedback t' y).
Proof.
  unfold feedback.
  rewrite !Z.lxor_spec, !cxor_xorb. reflexivity.
Qed.

Lemma feedback_0 (x : Z) : feedback 0 x = x.
Proof. reflexivity. Qed.

Lemma feedback_fitsIn (topBits x : Z) :
  fitsIn 40 x -> fitsIn 40 (feedback topBits x).
Proof.
  intros Hx. unfold feedback.
  repeat (apply cxor_fitsIn; [lia|unfold fitsIn; change (2 ^ 40) with 1099511627776; lia|]).
  exact Hx.
Qed.

(** A symbol only adds itself to what the turn does to the checksum. *)
Lemma polymod_step_symbol (checksum value : Z) :
  polymod_step checksum value = Z.lxor (polymod_step checksum 0) value.
Proof.
  rewrite !polymod_step_feedback.
  rewrite (feedback_out _ (Z.lxor _ value)), (feedback_out _ (Z.lxor _ 0)).
  xor_bits.
Qed.

Lemma polymod_step_lxor (a b : Z) :
  polymod_step (Z.lxor a b) 0
  = Z.lxor (polymod_step a 0) (polymod_step b 0).
Proof.
  rewrite !polymod_step_feedback.
  rewrite !Z.lxor_0_r.
  rewrite Z.shiftr_lxor, land_lxor_l, Z.shiftl_lxor.
  apply feedback_lxor.
Qed.

Lemma polymod_step_small (W : Z) :
  fitsIn 35 W -> polymod_step W 0 = Z.shiftl W 5.
Proof.
  intros HW. rewrite polymod_step_feedback.
  rewrite fitsIn_land by (assumption || lia).
  replace (Z.shiftr W 35) with 0.
  - rewrite feedback_0. apply Z.lxor_0_r.
  - symmetry. rewrite Z.shiftr_div_pow2 by lia.
    apply Z.div_small. exact HW.
Qed.

Lemma polymod_step_fitsIn (checksum value : Z) :
  fitsIn 5 value -> fitsIn 40 (polymod_step checksum value).
Proof.
  intros Hv. rewrite polymod_step_feedback.
  apply feedback_fitsIn.
  apply lxor_fitsIn; [lia| |apply (fitsIn_mono 5); [lia|exact Hv]].
  apply (shiftl_fitsIn 35 5); try lia.
  apply land_ones_fitsIn. lia.
Qed.

Lemma lor_join_lxor (w A x : Z) :
  0 <= w -> fitsIn w x -> Z.lor (Z.shiftl A w) x = Z.lxor (Z.shiftl A w) x.
Proof.
  intros Hw Hx. symmetry. apply Z.lxor_lor.
  apply Z.bits_inj'. intros n Hn.
  rewrite Z.land_spec, Z.bits_0.
  destruct (Z.ltb_spec n w).
  - rewrite Z.shiftl_spec_low by lia. reflexivity.
  - rewrite (fitsIn_testbit_high w x n) by (assumption || lia).
    apply andb_false_r.
Qed.

(** Up to eight symbols leave the checksum as eight zeros would, plus the
    integer they spell. *)
Lemma polymod_fold_symbols (checksum : Z) :
  forall symbols : list Z,
    Forall (fitsIn 5) symbols -> (List.length symbols <= 8)%nat ->
    fold_left polymod_step symbols checksum
    = Z.lxor (fold_left polymod_step (repeat 0 (List.length symbols)) checksum)
        (valueOf 5 symbols)
    /\ fitsIn (5 * Z.of_nat (List.length symbols)) (valueOf 5 symbols).
Proof.
  induction symbols as [|s symbols IH] using rev_ind; intros Hsym Hlen.
  - split; [cbn; rewrite Z.lxor_0_r; reflexivity|].
    cbn. unfold fitsIn. lia.
  - apply Forall_app in Hsym. destruct Hsym as [Hsym Hs].
    inversion Hs as [|? ? Hs5 _]; subst.
    rewrite length_app in *. cbn [List.length] in *.
    destruct IH as [IHfold IHfit]; [assumption|lia|].
    rewrite repeat_app, !fold_left_app. cbn [repeat fold_left].
    rewrite valueOf_snoc, IHfold.
    assert (H35 : fitsIn 35 (valueOf 5 symbols))
      by (apply (fitsIn_mono (5 * Z.of_nat (List.length symbols))); [lia|assumption]).
    rewrite lor_join_lxor by (assumption || lia).
    split.
    + rewrite polymod_step_symbol, polymod_step_lxor.
      rewrite (polymod_step_small (valueOf 5 symbols)) by assumption.
      rewrite !Z.lxor_assoc. reflexivity.
    + apply lxor_fitsIn; [lia| |apply (fitsIn_mono 5); [lia|assumption]].
      replace (5 * Z.of_nat (List.length symbols + 1))
        with (5 * Z.of_nat (List.length symbols) + 5) by lia.
      apply shiftl_fitsIn; (assumption || lia).
Qed.

Lemma checksumToArray_loop_app (n : nat) :
  forall (checksum : BN.t) (result : list Z),
    checksumToArray_loop n checksum result
    = result ++ checksumToArray_loop n checksum [].
Proof.
  induction n as [|n IH]; intros checksum result; cbn [checksumToArray_loop].
  - rewrite app_nil_r. reflexivity.
  - rewrite IH, (IH _ ([] ++ _)), <- app_assoc. reflexivity.
Qed.

(** The symbols of line 116, reversed, spell the checksum. *)
Lemma checksumToArray_loop_value (n : nat) :
  forall checksum : BN.t,
    fitsIn (5 * Z.of_nat n) checksum ->
    valueOf 5 (rev (checksumToArray_loop n checksum [])) = checksum
    /\ Forall (fitsIn 5) (checksumToArray_loop n checksum [])
    /\ List.length (checksumToArray_loop n checksum []) = n.
Proof.
  induction n as [|n IH]; intros checksum Hc.
  - cbn. unfold fitsIn in Hc. cbn in Hc. repeat split; [lia|constructor].
  - cbn [checksumToArray_loop].
    rewrite checksumToArray_loop_app.
    destruct (IH (BN.shrn checksum 5)) as (Hval & Hfit & Hlen).
    { apply shiftr_fitsIn; try lia.
      replace (5 * Z.of_nat n + 5) with (5 * Z.of_nat (S n)) by lia.
      exact Hc. }
    cbn [app]. repeat split.
    + cbn [rev]. rewrite valueOf_snoc, Hval.
      unfold BN.toNumber, BN.and, BN.new, BN.shrn.
      change 31 with (Z.ones 5).
      apply split_join. lia.
    + constructor; [|exact Hfit].
      unfold BN.toNumber, BN.and, BN.new. change 31 with (Z.ones 5).
      apply land_ones_fitsIn. lia.
    + cbn [List.length]. rewrite Hlen. reflexivity.
Qed.

Lemma checksumToArray_spec (checksum : BN.t) :
  fitsIn 40 checksum ->
  valueOf 5 (checksumToArray checksum) = checksum
  /\ Forall (fitsIn 5) (checksumToArray checksum)
  /\ List.length (checksumToArray checksum) = 8%nat.
Proof.
  intros Hc. unfold checksumToArray.
  destruct (checksumToArray_loop_value 8 checksum Hc) as (Hval & Hfit & Hlen).
  split; [|split].
  - exact Hval.
  - apply Forall_rev. exact Hfit.
  - rewrite length_rev. exact Hlen.
Qed.

Lemma polymod_fitsIn (data : list Z) :
  Forall (fitsIn 5) data -> fitsIn 40 (polymod data).
Proof.
  intros Hdata. unfold polymod, BN.xor, BN.One, BN.new.
  apply lxor_fitsIn; [lia| |unfold fitsIn; cbn; lia].
  destruct data as [|v data] using rev_ind.
  - cbn. unfold fitsIn. cbn. lia.
  - rewrite fold_left_app. cbn [fold_left].
    apply polymod_step_fitsIn.
    apply Forall_app in Hdata. destruct Hdata as [_ Hv].
    inversion Hv; assumption.
Qed.

(** The symbols that [hashToCashAddress] appends bring [polymod] to zero. *)
Lemma checksum_validates (data : list Z) :
  Forall (fitsIn 5) data ->
  polymod
    (data ++ checksumToArray (polymod (data ++ [0; 0; 0; 0; 0; 0; 0; 0]))) = 0.
Proof.
  intros Hdata.
  set (P := polymod (data ++ [0; 0; 0; 0; 0; 0; 0; 0])).
  assert (HP : fitsIn 40 P).
  { apply polymod_fitsIn. apply Forall_app. split; [exact Hdata|].
    repeat constructor; cbn; lia. }
  destruct (checksumToArray_spec P HP) as (Hval & Hfit & Hlen).
  unfold polymod. rewrite fold_left_app.
  destruct (polymod_fold_symbols (fold_left polymod_step data (BN.new 1))
              (checksumToArray P) Hfit) as [Hfold _]; [lia|].
  rewrite Hfold, Hlen, Hval.
  unfold P at 1. unfold polymod. rewrite fold_left_app.
  change (repeat 0 8) with [0; 0; 0; 0; 0; 0; 0; 0].
  unfold BN.xor, BN.One.
  rewrite <- Z.lxor_assoc, Z.lxor_nilpotent.
  reflexivity.
Qed.

(** ** Strings *)

Lemma mapString_app (f : ascii -> ascii) (a b : string) :
  JS.mapString f (a ++ b) = (JS.mapString f a ++ JS.mapString f b)%string.
Proof.
  induction a as [|c a IH]; simpl; [reflexivity|]. rewrite IH. reflexivity.
Qed.

Lemma mapString_fixed (f : ascii -> ascii) (s : string) :
  JS.mapString f s = s <-> Forall (fun c => f c = c) (list_ascii_of_string s).
Proof.
  induction s as [|c s IH]; simpl.
  - split; [constructor|reflexivity].
  - split.
    + intros H. injection H as Hc Hs. constructor; [exact Hc|].
      apply IH. exact Hs.
    + intros H. inversion H as [|? ? Hc Hs]; subst.
      rewrite Hc. f_equal. apply IH. exact Hs.
Qed.

Lemma lowerChar_idem (c : ascii) :
  JS.lowerChar (JS.lowerChar c) = JS.lowerChar c.
Proof.
  destruct c as [[] [] [] [] [] [] [] []]; reflexivity.
Qed.

Lemma toLowerCase_idem (s : string) :
  JS.toLowerCase (JS.toLowerCase s) = JS.toLowerCase s.
Proof.
  unfold JS.toLowerCase in *.
  induction s as [|c s IH]; cbn [JS.mapString]; [reflexivity|].
  rewrite lowerChar_idem. f_equal. exact IH.
Qed.

Lemma sameUnits_eq (a b : list Z) : JS.sameUnits a b = true <-> a = b.
Proof.
  revert b. induction a as [|x a IH]; intros [|y b]; cbn [JS.sameUnits];
    try (split; [discriminate|congruence]).
  - split; reflexivity.
  - rewrite andb_true_iff, Z.eqb_eq, IH. split.
    + intros [-> ->]. reflexivity.
    + intros H. injection H as -> ->. split; reflexivity.
Qed.

Lemma hasSingleCase_spec (s : string) :
  hasSingleCase s = true
  <-> s = JS.toLowerCase s \/ JS.units s = JS.toUpperCase s.
Proof.
  unfold hasSingleCase.
  rewrite orb_true_iff, String.eqb_eq, sameUnits_eq. reflexivity.
Qed.

(** On ASCII the upper-case form is a string again, letter by letter. *)
Lemma upperLetter_units (c : ascii) :
  (JS.charCode c <? 128) = true ->
  JS.upperUnits c = [JS.charCode (upperLetter c)]
  /\ JS.upperUnits (upperLetter c) = [JS.charCode (upperLetter c)]
  /\ JS.lowerChar (upperLetter c) = JS.lowerChar c.
Proof.
  destruct c as [[] [] [] [] [] [] [] []]; intros H;
    try discriminate H; repeat split.
Qed.

Lemma toUpperCase_ASCII (s : string) :
  isASCII s = true ->
  JS.toUpperCase s = JS.units (JS.mapString upperLetter s)
  /\ JS.toUpperCase (JS.mapString upperLetter s)
     = JS.units (JS.mapString upperLetter s)
  /\ JS.toLowerCase (JS.mapString upperLetter s) = JS.toLowerCase s.
Proof.
  unfold isASCII, JS.toUpperCase, JS.units, JS.toLowerCase.
  induction s as [|c s IH];
    cbn [list_ascii_of_string forallb JS.mapString flat_map map];
    [intros _; repeat split|].
  intros H. apply andb_true_iff in H. destruct H as [Hc Hs].
  destruct (upperLetter_units c Hc) as (Hup & Hfix & Hlow).
  destruct (IH Hs) as (IHup & IHfix & IHlow).
  rewrite Hup, Hfix, Hlow, IHup, IHfix, IHlow. repeat split.
Qed.

Lemma hasSingleCase_toLowerCase (s : string) :
  hasSingleCase (JS.toLowerCase s) = true.
Proof.
  apply hasSingleCase_spec. left. symmetry. apply toLowerCase_idem.
Qed.

Lemma list_ascii_app (a b : string) :
  list_ascii_of_string (a ++ b)
  = (list_ascii_of_string a ++ list_ascii_of_string b)%list.
Proof.
  induction a as [|c a IH]; simpl; [reflexivity|]. rewrite IH. reflexivity.
Qed.

Lemma split_nonempty (sep : ascii) (s : string) : JS.split sep s <> [].
Proof.
  destruct s as [|c s]; cbn [JS.split]; [discriminate|].
  destruct (Ascii.eqb c sep); [discriminate|].
  destruct (JS.split sep s); discriminate.
Qed.

Lemma split_noSeparator (s : string) :
  noSeparator s = true -> JS.split ":" s = [s].
Proof.
  unfold noSeparator.
  induction s as [|c s IH]; simpl; intros H; [reflexivity|].
  apply andb_true_iff in H. destruct H as [Hc Hs].
  apply negb_true_iff in Hc. rewrite Hc, (IH Hs). reflexivity.
Qed.

Lemma split_prefixed (prefix rest : string) :
  noSeparator prefix = true ->
  JS.split ":" (prefix ++ String ":" rest) = prefix :: JS.split ":" rest.
Proof.
  unfold noSeparator.
  induction prefix as [|c prefix IH]; simpl; intros H; [reflexivity|].
  apply andb_true_iff in H. destruct H as [Hc Hs].
  apply negb_true_iff in Hc. rewrite Hc, (IH Hs). reflexivity.
Qed.

Lemma distinct_NoDup (l : list ascii) : distinct l = true -> NoDup l.
Proof.
  induction l as [|c l IH]; simpl; intros H; [constructor|].
  apply andb_true_iff in H. destruct H as [Hc Hl].
  constructor; [|apply IH; exact Hl].
  intros Hin. apply negb_true_iff in Hc.
  assert (Hex : existsb (Ascii.eqb c) l = true).
  { apply existsb_exists. exists c. split; [exact Hin|apply Ascii.eqb_refl]. }
  congruence.
Qed.

Lemma get_In (s : string) :
  forall (n : nat) (c : ascii),
    String.get n s = Some c -> In c (list_ascii_of_string s).
Proof.
  induction s as [|c' s IH]; intros [|n] c H; simpl in *; try discriminate.
  - injection H as ->. left. reflexivity.
  - right. eapply IH. exact H.
Qed.

Lemma get_lt (s : string) :
  forall n : nat, (n < String.length s)%nat -> exists c, String.get n s = Some c.
Proof.
  induction s as [|c' s IH]; intros [|n] H; simpl in *; try lia.
  - eauto.
  - apply IH. lia.
Qed.

Lemma indexFrom_get (s : string) :
  NoDup (list_ascii_of_string s) ->
  forall (n : nat) (c : ascii) (i : Z),
    String.get n s = Some c -> indexFrom c s i = Some (i + Z.of_nat n).
Proof.
  induction s as [|c' s IH]; intros Hnd [|n] c i H; simpl in *; try discriminate.
  - injection H as ->. rewrite Ascii.eqb_refl. f_equal. lia.
  - inversion Hnd as [|? ? Hnotin Hnd']; subst.
    destruct (Ascii.eqb_spec c c') as [->|Hne].
    + exfalso. apply Hnotin. eapply get_In. exact H.
    + rewrite (IH Hnd' n c (i + 1) H). f_equal. lia.
Qed.

(** ** Version byte *)

Lemma prefixToArray_fitsIn (prefix : string) :
  Forall (fitsIn 5) (prefixToArray prefix).
Proof.
  unfold prefixToArray. apply Forall_map, Forall_forall. intros c _.
  unfold JS.band. change (JS.ToInt32 31) with (Z.ones 5).
  apply land_ones_fitsIn. lia.
Qed.

(** The version byte of a hash of a supported size, and what the decoder
    reads from it. *)
Lemma versionByteOf_supported (hashBuffer : Buffer) (type : CashaddrTypeEnum) :
  In (List.length hashBuffer) [20; 24; 28; 32; 40; 48; 56; 64]%nat ->
  exists code,
    sizeCode (Z.of_nat (List.length hashBuffer) * 8) = Some code
    /\ versionByteOf hashBuffer type = Ok (typeBits type + code)
    /\ fitsIn 8 (typeBits type + code)
    /\ getHashSize (typeBits type + code) = Z.of_nat (List.length hashBuffer) * 8
    /\ getType (typeBits type + code) = Ok type.
Proof.
  intros Hlen. unfold versionByteOf, getHashSizeBits, fitsIn.
  cbn [In] in Hlen.
  repeat (destruct Hlen as [Hlen|Hlen];
          [rewrite <- Hlen; destruct type; eexists;
           (split; [reflexivity|]); cbn; intuition (reflexivity || lia)|]).
  contradiction.
Qed.

Lemma versionByteOf_unsupported (hashBuffer : Buffer) (type : CashaddrTypeEnum) :
  sizeCode (Z.of_nat (List.length hashBuffer) * 8) = None ->
  versionByteOf hashBuffer type = Throw UnsupportedHashSize.
Proof.
  intros Hcode. unfold versionByteOf, getHashSizeBits.
  set (n := Z.of_nat (List.length hashBuffer) * 8) in *.
  destruct type; cbn [getTypeBits bind];
    repeat match goal with
    | |- context [n =? ?k] =>
        destruct (Z.eqb_spec n k) as [Heq|_];
        [rewrite Heq in Hcode; discriminate|]
    end; reflexivity.
Qed.

Lemma sizeCode_supported (n : nat) :
  In n [20; 24; 28; 32; 40; 48; 56; 64]%nat
  <-> sizeCode (Z.of_nat n * 8) <> None.
Proof.
  split.
  - cbn [In]. intros H.
    repeat (destruct H as [H|H]; [rewrite <- H; discriminate|]).
    contradiction.
  - intros H.
    destruct (sizeCode (Z.of_nat n * 8)) as [code|] eqn:Hcode; [|congruence].
    unfold sizeCode in Hcode.
    assert (Hn : Z.of_nat n * 8 = 160 \/ Z.of_nat n * 8 = 192
                 \/ Z.of_nat n * 8 = 224 \/ Z.of_nat n * 8 = 256
                 \/ Z.of_nat n * 8 = 320 \/ Z.of_nat n * 8 = 384
                 \/ Z.of_nat n * 8 = 448 \/ Z.of_nat n * 8 = 512).
    { destruct (Z.of_nat n * 8) as [|q|q]; try discriminate.
      repeat (destruct q as [q|q|]; try discriminate); tauto. }
    cbn [In]. lia.
Qed.

(** ** The codec over an alphabet *)

Section CodecProperties.

Variable CHARSET : string.
Variable Buffer_from_hex : string -> Buffer.

Hypothesis CHARSET_alphabet : isAlphabet CHARSET = true.
Hypothesis Buffer_bytes : forall s, Forall (fitsIn 8) (Buffer_from_hex s).


Lemma CHARSET_facts :
  String.length CHARSET = 32%nat
  /\ NoDup (list_ascii_of_string CHARSET)
  /\ Forall (fun c => JS.lowerChar c = c) (list_ascii_of_string CHARSET)
  /\ Forall (fun c => Ascii.eqb c ":" = false) (list_ascii_of_string CHARSET).
Proof.
  unfold isAlphabet in CHARSET_alphabet.
  repeat (apply andb_true_iff in CHARSET_alphabet;
          destruct CHARSET_alphabet as [CHARSET_alphabet ?H]).
  split; [apply Nat.eqb_eq; assumption|].
  split; [apply distinct_NoDup; assumption|].
  split.
  - apply mapString_fixed. apply String.eqb_eq. assumption.
  - unfold noSeparator in *. rewrite forallb_forall in *.
    apply Forall_forall. intros c Hc. apply negb_true_iff. auto.
Qed.

(** The alphabet codec writes lower-case text without separator and reads
    it back. *)
Lemma encode_decode (data : list Z) :
  Forall (fitsIn 5) data ->
  exists text,
    encode CHARSET data = Ok text
    /\ decode CHARSET text = Ok data
    /\ JS.toLowerCase text = text
    /\ noSeparator text = true.
Proof.
  destruct CHARSET_facts as (Hlen & Hnd & Hlow & Hsep).
  rewrite Forall_forall in Hlow, Hsep.
  induction data as [|value data IH]; intros Hdata.
  - exists EmptyString. repeat split.
  - inversion Hdata as [|? ? Hv Hdata']; subst.
    destruct (IH Hdata') as (text & Henc & Hdec & Hlower & Hnosep).
    destruct Hv as [Hv0 Hv32]. change (2 ^ 5) with 32 in Hv32.
    destruct (get_lt CHARSET (Z.to_nat value)) as [c Hc]; [lia|].
    pose proof (get_In _ _ _ Hc) as Hin.
    exists (String c text).
    cbn [encode decode].
    destruct (Z.leb_spec 0 value); [|lia].
    destruct (Z.ltb_spec value 32); [|lia].
    cbn [andb]. rewrite Hc, Henc. cbn [bind].
    rewrite (Hlow c Hin).
    rewrite (indexFrom_get CHARSET Hnd _ _ 0 Hc).
    rewrite Hdec. cbn [bind].
    repeat split.
    + do 2 f_equal. lia.
    + unfold JS.toLowerCase in *. cbn [JS.mapString].
      rewrite (Hlow c Hin), Hlower. reflexivity.
    + unfold noSeparator in *. cbn [list_ascii_of_string forallb].
      rewrite (Hsep c Hin), Hnosep. reflexivity.
Qed.

(** What the encoder builds for a hash of a supported size. *)
Lemma hashToCashAddress_supported (scriptHash : string)
  (type : CashaddrTypeEnum) (cashAddrPrefix : string) :
  In (List.length (Buffer_from_hex scriptHash))
     [20; 24; 28; 32; 40; 48; 56; 64]%nat ->
  exists code payloadData checksum text,
    sizeCode (Z.of_nat (List.length (Buffer_from_hex scriptHash)) * 8)
    = Some code
    /\ payloadDataOf Buffer_from_hex scriptHash type = Ok payloadData
    /\ Forall (fitsIn 5) payloadData
    /\ convertBits payloadData 5 8 (Some true)
       = Ok ((typeBits type + code) :: Buffer_from_hex scriptHash)
    /\ List.length checksum = 8%nat
    /\ payloadOf Buffer_from_hex scriptHash type cashAddrPrefix = Ok (payloadData ++ checksum)
    /\ validChecksum cashAddrPrefix (payloadData ++ checksum) = true
    /\ encode CHARSET (payloadData ++ checksum) = Ok text
    /\ decode CHARSET text = Ok (payloadData ++ checksum)
    /\ JS.toLowerCase text = text
    /\ noSeparator text = true
    /\ forall includePrefix,
        hashToCashAddress CHARSET Buffer_from_hex scriptHash type cashAddrPrefix includePrefix
        = Ok (if match includePrefix with None => false | Some b => b end
              then (cashAddrPrefix ++ String ":" text)%string else text).
Proof.
  intros Hsize.
  destruct (versionByteOf_supported _ type Hsize)
    as (code & Hcode & Hvb & Hfit & _).
  destruct (convertBits_roundtrip
              ((typeBits type + code) :: Buffer_from_hex scriptHash) 8 5)
    as (payloadData & Hconv & Hsym & Hback); try lia.
  { constructor; [exact Hfit|apply Buffer_bytes]. }
  set (checksumData :=
         ((prefixToArray cashAddrPrefix ++ [0]) ++ payloadData
            ++ [0; 0; 0; 0; 0; 0; 0; 0])%list).
  assert (Hpre : Forall (fitsIn 5)
                   ((prefixToArray cashAddrPrefix ++ [0]) ++ payloadData)).
  { repeat (apply Forall_app; split); try assumption.
    - apply prefixToArray_fitsIn.
    - repeat constructor; cbn; lia. }
  assert (HP : fitsIn 40 (polymod checksumData)).
  { apply polymod_fitsIn. unfold checksumData. rewrite app_assoc.
    apply Forall_app. split; [exact Hpre|].
    repeat constructor; cbn; lia. }
  destruct (checksumToArray_spec _ HP) as (_ & Hcfit & Hclen).
  destruct (encode_decode (payloadData ++ checksumToArray (polymod checksumData)))
    as (text & Henc & Hdec & Hlower & Hnosep).
  { apply Forall_app. split; assumption. }
  assert (HpayloadData : payloadDataOf Buffer_from_hex scriptHash type = Ok payloadData).
  { unfold payloadDataOf. rewrite Hvb. cbn [bind]. exact Hconv. }
  assert (Hpayload : payloadOf Buffer_from_hex scriptHash type cashAddrPrefix
                     = Ok (payloadData ++ checksumToArray (polymod checksumData))).
  { unfold payloadOf. rewrite HpayloadData. reflexivity. }
  exists code, payloadData, (checksumToArray (polymod checksumData)), text.
  repeat (split; [assumption|]).
  split.
  { unfold validChecksum, BN.eqn. apply Z.eqb_eq.
    rewrite app_assoc. unfold checksumData. rewrite (app_assoc _ payloadData).
    apply checksum_validates. exact Hpre. }
  repeat (split; [assumption|]).
  intros includePrefix.
  unfold hashToCashAddress. rewrite Hpayload. cbn [bind].
  rewrite Henc. reflexivity.
Qed.

Lemma Buffer_from_array_bytes (a : list Z) :
  Forall (fitsIn 8) a -> Buffer_from_array a = a.
Proof.
  intros Ha. unfold Buffer_from_array.
  induction Ha as [|v a Hv Ha IH]; cbn [map]; [reflexivity|].
  rewrite IH. f_equal. apply Z.mod_small. exact Hv.
Qed.

Lemma slice_to_last_app {A : Type} (a b : list A) :
  JS.slice_to_last (a ++ b) (List.length b) = a.
Proof.
  unfold JS.slice_to_last. rewrite length_app.
  replace (List.length a + List.length b - List.length b)%nat
    with (List.length a + 0)%nat by lia.
  rewrite firstn_app_2. cbn [firstn]. apply app_nil_r.
Qed.

(** C1, as the code has it.  For a hash of 20, 24, 28, 32, 40, 48, 56 or
    64 bytes, either type, and a prefix that is its own lower-case form
    and holds no [":"], [hashToCashAddress] with [includePrefix] gives an
    address that [cashAddressToHash] decodes, with [[prefix]] as
    candidates, to the hash and the type.  The decoder settles on the
    original prefix; its result holds the hash and the type only. *)
Theorem cashaddr_round_trip
  (scriptHash : string) (type : CashaddrTypeEnum) (prefix : string) :
  In (List.length (Buffer_from_hex scriptHash))
     [20; 24; 28; 32; 40; 48; 56; 64]%nat ->
  JS.toLowerCase prefix = prefix ->
  noSeparator prefix = true ->
  exists address payload,
    hashToCashAddress CHARSET Buffer_from_hex scriptHash type prefix (Some true)
    = Ok address
    /\ resolvePrefix CHARSET address [prefix] = Ok (prefix, payload)
    /\ cashAddressToHash CHARSET address [prefix]
       = Ok {| scriptHash := Buffer_from_hex scriptHash; type := type |}.
Proof.
  intros Hsize Hlower Hnosep.
  destruct (hashToCashAddress_supported scriptHash type prefix Hsize)
    as (code & payloadData & checksum & text & Hcode & _ & _ & Hback
        & Hclen & _ & Hvalid & _ & Hdec & Htext & Htextsep & Haddr).
  destruct (versionByteOf_supported _ type Hsize)
    as (code' & Hcode' & _ & _ & Hsizeof & Htype).
  assert (code' = code) by congruence. subst code'.
  exists (prefix ++ String ":" text)%string, (payloadData ++ checksum)%list.
  assert (Haddrlower :
    JS.toLowerCase (prefix ++ String ":" text) = (prefix ++ String ":" text)%string).
  { unfold JS.toLowerCase in *. rewrite mapString_app. cbn [JS.mapString].
    rewrite Hlower, Htext. reflexivity. }
  assert (Hresolve :
    resolvePrefix CHARSET (prefix ++ String ":" text) [prefix]
    = Ok (prefix, (payloadData ++ checksum)%list)).
  { unfold resolvePrefix.
    replace (hasSingleCase (prefix ++ String ":" text)) with true
      by (symmetry; apply hasSingleCase_spec; left; symmetry; exact Haddrlower).
    cbn [negb]. rewrite Haddrlower.
    rewrite split_prefixed, split_noSeparator by assumption.
    cbn [List.length Nat.ltb Nat.leb Nat.eqb nth].
    rewrite Htext, Hdec. cbn [bind]. rewrite Hvalid. reflexivity. }
  split; [apply (Haddr (Some true))|].
  split; [exact Hresolve|].
  unfold cashAddressToHash. rewrite Hresolve. cbn [bind].
  rewrite <- Hclen, slice_to_last_app, Hback. cbn [bind].
  rewrite Hsizeof, Z.eqb_refl. cbn [negb].
  rewrite Htype. cbn [bind].
  rewrite Buffer_from_array_bytes by apply Buffer_bytes.
  reflexivity.
Qed.

(** C5. The encoder fails, with [UnsupportedHashSize], exactly when eight
    times the length of the hash is outside 160, 192, 224, 256, 320, 384,
    448, 512.  Otherwise it returns an address, the text [encoded] after
    the prefix and separator if they were asked for; the characters of
    [encoded] stand for the symbols [payload], and all but the last eight
    of these regroup, as the decoder regroups them, to the byte
    [typeBits type + sizeCode] followed by the hash, with [typeBits] 0 or
    8 and [sizeCode] the table of section 4.4. *)
Theorem encoder_size_check_and_version_byte
  (scriptHash : string) (type : CashaddrTypeEnum) (prefix : string)
  (includePrefix : option bool) :
  let hash := Buffer_from_hex scriptHash in
  let bitLength := Z.of_nat (List.length hash) * 8 in
  (~ In bitLength [160; 192; 224; 256; 320; 384; 448; 512] ->
   hashToCashAddress CHARSET Buffer_from_hex scriptHash type prefix includePrefix
   = Throw UnsupportedHashSize)
  /\ (In bitLength [160; 192; 224; 256; 320; 384; 448; 512] ->
      exists code encoded payload,
        sizeCode bitLength = Some code
        /\ versionByteOf hash type = Ok (typeBits type + code)
        /\ hashToCashAddress CHARSET Buffer_from_hex scriptHash type prefix
             includePrefix
           = Ok (if match includePrefix with None => false | Some b => b end
                 then (prefix ++ ":" ++ encoded)%string else encoded)
        /\ decode CHARSET encoded = Ok payload
        /\ payloadOf Buffer_from_hex scriptHash type prefix = Ok payload
        /\ convertBits (JS.slice_to_last payload 8) 5 8 (Some true)
           = Ok ((typeBits type + code) :: hash)).
Proof.
  intros hash bitLength. split.
  - intros Hout.
    assert (Hnone : sizeCode bitLength = None).
    { destruct (sizeCode bitLength) as [code|] eqn:Hcode; [|reflexivity].
      exfalso. apply Hout. unfold sizeCode in Hcode. cbn [In].
      destruct bitLength as [|q|q]; try discriminate.
      repeat (destruct q as [q|q|]; try discriminate); tauto. }
    unfold hashToCashAddress, payloadOf, payloadDataOf.
    fold hash. rewrite (versionByteOf_unsupported hash type Hnone).
    reflexivity.
  - intros Hin.
    assert (Hsize : In (List.length hash) [20; 24; 28; 32; 40; 48; 56; 64]%nat).
    { unfold bitLength in Hin. cbn [In] in *. lia. }
    destruct (hashToCashAddress_supported scriptHash type prefix Hsize)
      as (code & payloadData & checksum & text & Hcode & _ & _
          & Hback & Hclen & Hpayload & _ & _ & Hdec & _ & _ & Haddr).
    destruct (versionByteOf_supported _ type Hsize)
      as (code' & Hcode' & Hvb & _).
    fold hash in Hcode, Hcode', Hvb, Hback. fold bitLength in Hcode, Hcode'.
    assert (code' = code) by congruence. subst code'.
    exists code, text, (payloadData ++ checksum)%list.
    split; [exact Hcode|]. split; [exact Hvb|].
    split; [apply Haddr|]. split; [exact Hdec|]. split; [exact Hpayload|].
    rewrite <- Hclen, slice_to_last_app. exact Hback.
Qed.

End CodecProperties.

(** ** The padding rules of convertBits *)

Lemma convertBits_for_invalid (from to mask : Z) :
  0 < to ->
  forall (data : list Z) (accumulator bits : Z) (result : list Z),
    Exists (fun value => JS.sar value from <> 0) data ->
    convertBits_for data from to mask accumulator bits result
    = Throw InvalidArgument.
Proof.
  intros Hto. induction data as [|value data IH]; intros acc bits res Hbad.
  - inversion Hbad.
  - cbn [convertBits_for].
    destruct ((value <? 0) || negb (JS.sar value from =? 0)) eqn:Hcheck;
      [reflexivity|].
    apply orb_false_iff in Hcheck. destruct Hcheck as [_ Hsar].
    apply negb_false_iff, Z.eqb_eq in Hsar.
    destruct (convertBits_while_ends to mask Hto (Z.to_nat (bits + from))
                (JS.bor (JS.shl acc from) value) (bits + from) res)
      as [[bits' res'] Hrun]; [lia|].
    rewrite Hrun. apply IH.
    inversion Hbad as [? ? Hv|? ? Htail]; subst; [contradiction|exact Htail].
Qed.

Lemma convertBits_for_throws (from to mask : Z) :
  forall (data : list Z) (accumulator bits : Z) (result : list Z) (e : Error),
    convertBits_for data from to mask accumulator bits result = Throw e ->
    e = InvalidArgument.
Proof.
  induction data as [|value data IH]; intros acc bits res e H;
    cbn [convertBits_for] in H.
  - discriminate.
  - destruct ((value <? 0) || negb (JS.sar value from =? 0)); [congruence|].
    destruct (convertBits_while _ _ _ _ _ _) as [[bits' res']|];
      [|discriminate].
    eapply IH. exact H.
Qed.

Lemma convertBits_throws (data : list Z) (from to : Z) (strict : option bool)
  (e : Error) :
  convertBits data from to strict = Throw e ->
  e = InvalidArgument \/ e = InvalidPadding.
Proof.
  unfold convertBits. intros H.
  destruct (convertBits_for data from to _ 0 0 []) as [[[acc bits] res]|e'|]
    eqn:Hfor; cbn [bind] in H.
  - destruct (negb _); [destruct (bits >? 0); discriminate|].
    destruct (_ || _); [right; congruence|discriminate].
  - left. injection H as <-. eapply convertBits_for_throws. exact Hfor.
  - discriminate.
Qed.

(** The loop of line 60 runs to its end on values that pass the test of
    line 62. *)
Lemma convertBits_for_runs (from to mask : Z) :
  0 < to ->
  forall (data : list Z) (accumulator bits : Z) (result : list Z),
    Forall (fun value => 0 <= value /\ JS.sar value from = 0) data ->
    exists state,
      convertBits_for data from to mask accumulator bits result = Ok state.
Proof.
  intros Hto. induction data as [|value data IH]; intros acc bits res Hdata.
  - eexists. reflexivity.
  - inversion Hdata as [|? ? [Hv Hsar] Hdata']; subst.
    cbn [convertBits_for].
    destruct (Z.ltb_spec value 0); [lia|].
    rewrite Hsar. cbn [Z.eqb negb orb].
    destruct (convertBits_while_ends to mask Hto (Z.to_nat (bits + from))
                (JS.bor (JS.shl acc from) value) (bits + from) res)
      as [[bits' res'] Hrun]; [lia|].
    rewrite Hrun. apply IH. exact Hdata'.
Qed.

(** C4. On an input whose values pass the test of line 62, the loop ends
    with some [accumulator], [bits] left-over bits and [result].  Without
    [strict], [convertBits] closes with one more symbol, the accumulator
    shifted left to fill [to] bits, whenever [bits] is positive; with
    [strict] it fails, with [InvalidPadding], exactly when [bits >= from]
    or that symbol is not zero.  For widths with [from + to <= 32] and
    values below [2 ^ from], [bits] is [from * length] modulo [to],
    [result] spells the bits above them, and the closing symbol is the
    left-over bits of the input, shifted.  A value with [value >> from]
    other than zero fails with [InvalidArgument]. *)
Theorem convertBits_padding_rules (data : list Z) (from to : Z) :
  0 < to ->
  (Forall (fun value => 0 <= value /\ JS.sar value from = 0) data ->
   exists accumulator bits result,
     convertBits_for data from to (JS.shl 1 to - 1) 0 0 []
     = Ok (accumulator, bits, result)
     /\ let padded :=
          JS.band (JS.shl accumulator (to - bits)) (JS.shl 1 to - 1) in
        convertBits data from to None
        = Ok (if 0 <? bits then result ++ [padded] else result)
        /\ convertBits data from to (Some false)
           = Ok (if 0 <? bits then result ++ [padded] else result)
        /\ (convertBits data from to (Some true) = Throw InvalidPadding
            <-> bits >= from \/ padded <> 0)
        /\ (bits < from -> padded = 0 ->
            convertBits data from to (Some true) = Ok result)
        /\ (0 < from -> from + to <= 32 -> Forall (fitsIn from) data ->
            bits = (from * Z.of_nat (List.length data)) mod to
            /\ Z.of_nat (List.length result)
               = from * Z.of_nat (List.length data) / to
            /\ valueOf to result = Z.shiftr (valueOf from data) bits
            /\ padded
               = Z.shiftl (Z.land (valueOf from data) (Z.ones bits))
                   (to - bits)))
  /\ (forall strict,
        Exists (fun value => JS.sar value from <> 0) data ->
        convertBits data from to strict = Throw InvalidArgument).
Proof.
  intros Hto. split.
  - intros Hdata.
    destruct (convertBits_for_runs from to (JS.shl 1 to - 1) Hto data 0 0 []
                Hdata) as [[[acc bits] res] Hfor].
    exists acc, bits, res. split; [exact Hfor|].
    cbv zeta.
    set (padded := JS.band (JS.shl acc (to - bits)) (JS.shl 1 to - 1)).
    unfold convertBits. rewrite Hfor. cbn [bind negb]. fold padded.
    replace (bits >? 0) with (0 <? bits) by (rewrite Z.gtb_ltb; reflexivity).
    split; [destruct (0 <? bits); reflexivity|].
    split; [destruct (0 <? bits); reflexivity|].
    split; [|split].
    + destruct (Z.geb_spec bits from) as [Hge|Hlt]; cbn [orb].
      * split; [intros _; left; lia|reflexivity].
      * destruct (Z.eqb_spec padded 0) as [Hz|Hnz]; cbn [negb].
        -- split; [discriminate|]. intros [?|?]; [lia|contradiction].
        -- split; [intros _; right; exact Hnz|reflexivity].
    + intros Hlt Hz.
      destruct (Z.geb_spec bits from); [lia|].
      rewrite Hz. reflexivity.
    + intros Hfrom Hsum Hfits.
      destruct (convertBits_for_spec from to Hfrom Hto Hsum data 0 0 0 [])
        as (acc' & bits' & res' & Hrun & Hacc & Hbits & Hval & _ & Hlen);
        try assumption; try lia.
      { intros n Hn. reflexivity. }
      { reflexivity. }
      { constructor. }
      rewrite Hfor in Hrun. injection Hrun as <- <- <-.
      fold (valueOf from data) in Hacc, Hval.
      cbn [List.length] in Hlen.
      split; [apply (Z.mod_unique_pos _ _ (Z.of_nat (List.length res))); lia|].
      split; [apply (Z.div_unique_pos _ _ _ bits); lia|].
      split; [exact Hval|].
      unfold padded.
      rewrite (band_shl_mask acc (valueOf from data) (to - bits) to)
        by (assumption || lia).
      apply pad_low_bits. lia.
  - intros strict Hbad. unfold convertBits.
    rewrite (convertBits_for_invalid from to _ Hto data 0 0 [] Hbad).
    reflexivity.
Qed.

(** ** The decoder *)

Lemma candidateLoop_find (cashAddrPrefixes : list string) (payload : list Z) :
  candidateLoop cashAddrPrefixes payload
  = find (fun candidate =>
            polymod (prefixToArray candidate ++ [0] ++ payload) =? 0)
      cashAddrPrefixes.
Proof.
  induction cashAddrPrefixes as [|candidate rest IH]; cbn [candidateLoop find].
  - reflexivity.
  - unfold validChecksum at 1, BN.eqn. rewrite <- app_assoc, IH. reflexivity.
Qed.

Lemma decode_throws (CHARSET text : string) (e : Error) :
  decode CHARSET text = Throw e -> e = InvalidCharacter.
Proof.
  revert e. induction text as [|c text IH]; intros e H; cbn [decode] in H.
  - discriminate.
  - destruct (indexFrom _ _ _); [|congruence].
    destruct (decode CHARSET text) as [rest|e'|]; cbn [bind] in H;
      try discriminate.
    injection H as <-. apply IH. reflexivity.
Qed.

Lemma hasSingleCase_false (s : string) :
  hasSingleCase s = false
  <-> s <> JS.toLowerCase s /\ JS.units s <> JS.toUpperCase s.
Proof.
  unfold hasSingleCase. rewrite orb_false_iff.
  rewrite <- !not_true_iff_false, String.eqb_eq, sameUnits_eq. reflexivity.
Qed.

Lemma separator_lowerChar (c : ascii) :
  Ascii.eqb (JS.lowerChar c) ":" = Ascii.eqb c ":".
Proof.
  destruct c as [[] [] [] [] [] [] [] []]; reflexivity.
Qed.

Lemma noSeparator_toLowerCase (s : string) :
  noSeparator (JS.toLowerCase s) = noSeparator s.
Proof.
  unfold noSeparator, JS.toLowerCase.
  induction s as [|c s IH]; cbn [JS.mapString list_ascii_of_string forallb];
    [reflexivity|].
  rewrite separator_lowerChar, IH. reflexivity.
Qed.

(** The decoder only looks at the lower-case form of a single-case
    address. *)
Lemma resolvePrefix_lower (CHARSET address address' : string)
  (cashAddrPrefixes : list string) :
  hasSingleCase address = true -> hasSingleCase address' = true ->
  JS.toLowerCase address = JS.toLowerCase address' ->
  resolvePrefix CHARSET address cashAddrPrefixes
  = resolvePrefix CHARSET address' cashAddrPrefixes.
Proof.
  intros H H' Hlower. unfold resolvePrefix.
  rewrite H, H', Hlower. reflexivity.
Qed.


Lemma resolvePrefix_throws (CHARSET address : string)
  (cashAddrPrefixes : list string) (e : Error) :
  resolvePrefix CHARSET address cashAddrPrefixes = Throw e ->
  (e = MixedCase /\ hasSingleCase address = false)
  \/ e = InvalidFormat \/ e = InvalidCharacter \/ e = InvalidChecksum.
Proof.
  unfold resolvePrefix. intros H.
  destruct (hasSingleCase address); cbn [negb] in H;
    [|left; split; congruence].
  right.
  destruct (_ <? _)%nat; [left; congruence|].
  destruct (_ =? _)%nat;
    (destruct (decode CHARSET _) as [symbols|e'|] eqn:Hdec; cbn [bind] in H;
     [|right; left; injection H as <-; eapply decode_throws; exact Hdec
      |discriminate]).
  - destruct (negb _); [right; right; congruence|discriminate].
  - destruct (candidateLoop _ _); [discriminate|right; right; congruence].
Qed.

(** C7. The decoder fails with [MixedCase] exactly on a string that is
    neither its lower-case nor its upper-case form, whatever else the
    string and the candidates are: no other step comes first, and no other
    step gives this error. *)
Theorem mixed_case_rejected_first
  (CHARSET address : string) (cashAddrPrefixes : list string) :
  cashAddressToHash CHARSET address cashAddrPrefixes = Throw MixedCase
  <-> address <> JS.toLowerCase address
      /\ JS.units address <> JS.toUpperCase address.
Proof.
  rewrite <- hasSingleCase_false. split.
  - unfold cashAddressToHash. intros H.
    destruct (resolvePrefix CHARSET address cashAddrPrefixes)
      as [[prefix payload]|e|] eqn:Hres; cbn [bind] in H; try discriminate.
    + exfalso.
      destruct (convertBits _ 5 8 (Some true)) as [[|versionByte hash]|e|]
        eqn:Hconv; cbn [bind] in H; try discriminate.
      * destruct (negb _); [discriminate|].
        unfold getType in H.
        destruct (_ =? 0); [discriminate|].
        destruct (_ =? 8); discriminate.
      * injection H as ->.
        destruct (convertBits_throws _ _ _ _ _ Hconv); discriminate.
    + injection H as ->.
      destruct (resolvePrefix_throws _ _ _ _ Hres) as [[_ Hcase]|[?|[?|?]]];
        [exact Hcase|discriminate..].
  - intros Hcase. unfold cashAddressToHash, resolvePrefix.
    rewrite Hcase. reflexivity.
Qed.

(** C8, as the code has it.  A single-case address of ASCII characters
    that decodes: its upper-case form is a string [upper] of the same
    kind, and decoding [upper] and decoding the lower-case form both give
    the result of decoding the address. *)
Theorem decoding_ignores_case
  (CHARSET address : string) (cashAddrPrefixes : list string)
  (decoded : BitcoinCashScriptHash) :
  isASCII address = true ->
  hasSingleCase address = true ->
  cashAddressToHash CHARSET address cashAddrPrefixes = Ok decoded ->
  exists upper,
    JS.units upper = JS.toUpperCase address
    /\ cashAddressToHash CHARSET upper cashAddrPrefixes = Ok decoded
    /\ cashAddressToHash CHARSET (JS.toLowerCase address) cashAddrPrefixes
       = Ok decoded.
Proof.
  intros Hascii Hcase Hdec.
  destruct (toUpperCase_ASCII address Hascii) as (Hupper & Hfixed & Hlower).
  exists (JS.mapString upperLetter address).
  split; [symmetry; exact Hupper|].
  unfold cashAddressToHash in *.
  rewrite (resolvePrefix_lower CHARSET (JS.mapString upperLetter address)
             address),
          (resolvePrefix_lower CHARSET (JS.toLowerCase address) address);
    auto using hasSingleCase_toLowerCase, toLowerCase_idem.
  apply hasSingleCase_spec. right. symmetry. exact Hfixed.
Qed.

(** C6. An address without separator, in a single case and of characters
    of the alphabet: the decoder settles on the first candidate, in the
    order of the list, for which
    [polymod (prefixToArray candidate ++ [0] ++ payload)] is zero, and
    fails with [InvalidChecksum] when there is none. *)
Theorem candidate_prefix_resolution
  (CHARSET address : string) (cashAddrPrefixes : list string)
  (payload : list Z) :
  hasSingleCase address = true ->
  noSeparator address = true ->
  decode CHARSET (JS.toLowerCase address) = Ok payload ->
  match find (fun candidate =>
                polymod (prefixToArray candidate ++ [0] ++ payload) =? 0)
          cashAddrPrefixes with
  | Some prefix =>
      resolvePrefix CHARSET address cashAddrPrefixes = Ok (prefix, payload)
  | None =>
      resolvePrefix CHARSET address cashAddrPrefixes = Throw InvalidChecksum
      /\ cashAddressToHash CHARSET address cashAddrPrefixes
         = Throw InvalidChecksum
  end.
Proof.
  intros Hcase Hnosep Hdec.
  rewrite <- candidateLoop_find.
  assert (Hres :
    resolvePrefix CHARSET address cashAddrPrefixes
    = match candidateLoop cashAddrPrefixes payload with
      | Some prefix => Ok (prefix, payload)
      | None => Throw InvalidChecksum
      end).
  { unfold resolvePrefix. rewrite Hcase. cbn [negb].
    rewrite split_noSeparator
      by (rewrite noSeparator_toLowerCase; exact Hnosep).
    cbn [List.length Nat.ltb Nat.leb Nat.eqb nth].
    rewrite toLowerCase_idem, Hdec. reflexivity. }
  destruct (candidateLoop cashAddrPrefixes payload) as [prefix|].
  - exact Hres.
  - split; [exact Hres|].
    unfold cashAddressToHash. rewrite Hres. reflexivity.
Qed.


(** ** Bits the codec does not look at *)

Lemma charCode_range (c : ascii) : 0 <= JS.charCode c < 256.
Proof.
  unfold JS.charCode.
  pose proof (N_ascii_bounded c). lia.
Qed.

Lemma band_31_mod (c : ascii) :
  JS.band (JS.charCode c) 31 = JS.charCode c mod 32.
Proof.
  unfold JS.band.
  pose proof (charCode_range c).
  rewrite ToInt32_small by (simpl; lia).
  change (JS.ToInt32 31) with (Z.ones 5).
  apply Z.land_ones. lia.
Qed.

Lemma prefixToArray_mod_32 (prefix prefix' : string) :
  Forall2 (fun c c' => JS.charCode c mod 32 = JS.charCode c' mod 32)
    (list_ascii_of_string prefix) (list_ascii_of_string prefix') ->
  prefixToArray prefix = prefixToArray prefix'.
Proof.
  unfold prefixToArray. intros H.
  induction H as [|c c' l l' Hc _ IH]; cbn [map]; [reflexivity|].
  rewrite !band_31_mod, Hc, IH. reflexivity.
Qed.

(** C10. Two prefixes of the same length whose characters agree modulo 32
    (a prefix and its upper-case form, say) make [validChecksum] give the
    same verdict on every payload, and make [hashToCashAddress] give the
    same symbols, payload and checksum, hence the same text after the
    prefix. *)
Theorem prefix_salt_low_five_bits
  (CHARSET : string) (Buffer_from_hex : string -> Buffer)
  (prefix prefix' : string) :
  Forall2 (fun c c' => JS.charCode c mod 32 = JS.charCode c' mod 32)
    (list_ascii_of_string prefix) (list_ascii_of_string prefix') ->
  (forall payload, validChecksum prefix payload = validChecksum prefix' payload)
  /\ (forall scriptHash type,
        payloadOf Buffer_from_hex scriptHash type prefix
        = payloadOf Buffer_from_hex scriptHash type prefix')
  /\ (forall scriptHash type,
        hashToCashAddress CHARSET Buffer_from_hex scriptHash type prefix None
        = hashToCashAddress CHARSET Buffer_from_hex scriptHash type prefix' None).
Proof.
  intros H. apply prefixToArray_mod_32 in H.
  assert (Hpayload : forall scriptHash type,
    payloadOf Buffer_from_hex scriptHash type prefix
    = payloadOf Buffer_from_hex scriptHash type prefix').
  { intros scriptHash type. unfold payloadOf. rewrite H. reflexivity. }
  split; [|split].
  - intros payload. unfold validChecksum. rewrite H. reflexivity.
  - exact Hpayload.
  - intros scriptHash type. unfold hashToCashAddress.
    rewrite Hpayload. reflexivity.
Qed.

Lemma band_ignores_bit7 (versionByte m : Z) :
  fitsIn 7 m -> JS.band (Z.lxor versionByte 128) m = JS.band versionByte m.
Proof.
  intros Hm. unfold JS.band.
  assert (Hm' : JS.ToInt32 m = m).
  { apply ToInt32_small. destruct Hm as [Hlo Hhi].
    change (2 ^ 7) with 128 in Hhi. simpl. lia. }
  rewrite Hm'.
  apply Z.bits_inj'. intros n Hn. rewrite !Z.land_spec.
  destruct (Z.ltb_spec n 7).
  - rewrite !ToInt32_testbit by lia.
    rewrite Z.lxor_spec.
    change 128 with (2 ^ 7).
    rewrite Z.pow2_bits_false by lia.
    rewrite xorb_false_r. reflexivity.
  - rewrite (fitsIn_testbit_high 7 m n) by (assumption || lia).
    rewrite !andb_false_r. reflexivity.
Qed.

(** C9. The decoder reads the type from [versionByte & 120] and the size
    from [versionByte & 7], so flipping bit 7 of a version byte changes
    neither.  The address below is checksum-valid, its version byte is 128,
    and it decodes to the hash and type of the canonical address of twenty
    zero bytes, whose version byte is 0. *)
Theorem version_byte_bit7_ignored :
  (forall versionByte,
     getType (Z.lxor versionByte 128) = getType versionByte
     /\ getHashSize (Z.lxor versionByte 128) = getHashSize versionByte)
  /\ exists address canonical : string,
      address <> canonical
      /\ hashToCashAddress CHARSET_cashaddr hexBytes
           "0000000000000000000000000000000000000000" pubkeyhash
           "bitcoincash" (Some true) = Ok canonical
      /\ (resolved <- resolvePrefix CHARSET_cashaddr address ["bitcoincash"%string] ;;
          convertBits (JS.slice_to_last (snd resolved) 8) 5 8 (Some true))
         = Ok (128 :: repeat 0 20)
      /\ cashAddressToHash CHARSET_cashaddr address ["bitcoincash"%string]
         = Ok {| scriptHash := repeat 0 20; type := pubkeyhash |}
      /\ cashAddressToHash CHARSET_cashaddr canonical ["bitcoincash"%string]
         = Ok {| scriptHash := repeat 0 20; type := pubkeyhash |}.
Proof.
  split.
  - intros versionByte. unfold getType, getHashSize.
    rewrite !band_ignores_bit7 by (unfold fitsIn; simpl; lia).
    split; reflexivity.
  - exists "bitcoincash:sqqqqqqqqqqqqqqqqqqqqqqqqqqqqqqqqqc3zsmrpy"%string,
           "bitcoincash:qqqqqqqqqqqqqqqqqqqqqqqqqqqqqqqqqqfnhks603"%string.
    split; [discriminate|].
    repeat split; vm_compute; reflexivity.
Qed.

(** ** The concrete alphabet and hex reader *)

Lemma hexDigit_range (c : ascii) (x : Z) : hexDigit c = Some x -> 0 <= x < 16.
Proof.
  unfold hexDigit.
  set (n := Z.of_N (N_of_ascii c)).
  destruct ((48 <=? n) && (n <=? 57)) eqn:Hdigit;
    [|destruct ((97 <=? n) && (n <=? 102)) eqn:Hlower;
      [|destruct ((65 <=? n) && (n <=? 70)) eqn:Hupper]];
    intros H; try discriminate; injection H as <-;
    match goal with
    | Hb : _ && _ = true |- _ =>
        apply andb_true_iff in Hb; destruct Hb as [Hb1 Hb2];
        apply Z.leb_le in Hb1, Hb2; lia
    end.
Qed.

Lemma hexBytes_bytes (s : string) : Forall (fitsIn 8) (hexBytes s).
Proof.
  assert (H : Forall (fitsIn 8) (hexBytes s)
              /\ forall c, Forall (fitsIn 8) (hexBytes (String c s))).
  { induction s as [|l s [IH1 IH2]].
    - split; [constructor|intros c; constructor].
    - split; [apply IH2|]. intros h. cbn [hexBytes].
      destruct (hexDigit h) as [x|] eqn:Hx; [|constructor].
      destruct (hexDigit l) as [y|] eqn:Hy; [|constructor].
      constructor; [|exact IH1].
      apply hexDigit_range in Hx, Hy.
      unfold fitsIn. change (2 ^ 8) with 256. lia. }
  apply H.
Qed.

(** ** The theorems at concrete inputs *)

Lemma cashaddr_round_trip_witness :
  exists address payload,
    hashToCashAddress CHARSET_cashaddr hexBytes
      "0000000000000000000000000000000000000000" pubkeyhash "bitcoincash"
      (Some true) = Ok address
    /\ resolvePrefix CHARSET_cashaddr address ["bitcoincash"%string]
       = Ok ("bitcoincash"%string, payload)
    /\ cashAddressToHash CHARSET_cashaddr address ["bitcoincash"%string]
       = Ok {| scriptHash := hexBytes "0000000000000000000000000000000000000000";
               type := pubkeyhash |}.
Proof.
  apply (cashaddr_round_trip CHARSET_cashaddr hexBytes).
  - reflexivity.
  - exact hexBytes_bytes.
  - vm_compute. left. reflexivity.
  - reflexivity.
  - reflexivity.
Defined.

(** C1 as stated fails on a prefix that holds the separator, and on one in
    upper case: the encoder writes the address, the decoder refuses it. *)
Lemma round_trip_breaks_on_prefix :
  hashToCashAddress CHARSET_cashaddr hexBytes
    "0000000000000000000000000000000000000000" pubkeyhash "a:b" (Some true)
  = Ok "a:b:qqqqqqqqqqqqqqqqqqqqqqqqqqqqqqqqqqwuutl090"%string
  /\ cashAddressToHash CHARSET_cashaddr
       "a:b:qqqqqqqqqqqqqqqqqqqqqqqqqqqqqqqqqqwuutl090" ["a:b"%string]
     = Throw InvalidFormat
  /\ hashToCashAddress CHARSET_cashaddr hexBytes
       "0000000000000000000000000000000000000000" pubkeyhash "BCH" (Some true)
     = Ok "BCH:qqqqqqqqqqqqqqqqqqqqqqqqqqqqqqqqqqjmjspsep"%string
  /\ cashAddressToHash CHARSET_cashaddr
       "BCH:qqqqqqqqqqqqqqqqqqqqqqqqqqqqqqqqqqjmjspsep" ["BCH"%string]
     = Throw MixedCase.
Proof.
  repeat split; vm_compute; reflexivity.
Qed.



Lemma convertBits_padding_rules_witness :
  exists accumulator result,
    convertBits_for [255] 8 5 (JS.shl 1 5 - 1) 0 0 [] = Ok (accumulator, 3, result)
    /\ valueOf 5 result = 31
    /\ convertBits [255] 8 5 None = Ok (result ++ [28])
    /\ convertBits [255] 8 5 (Some true) = Throw InvalidPadding.
Proof.
  destruct (convertBits_padding_rules [255] 8 5) as [Hrules _]; [lia|].
  destruct Hrules as (accumulator & bits & result & Hfor & Hrules).
  { constructor; [split; [lia|reflexivity]|constructor]. }
  cbv zeta in Hrules.
  destruct Hrules as (Hlenient & _ & Hstrict & _ & Hwidths).
  destruct Hwidths as (Hbits & _ & Hvalue & Hpadded); [lia|lia| |].
  { constructor; [unfold fitsIn; simpl; lia|constructor]. }
  change ((8 * Z.of_nat (List.length [255])) mod 5) with 3 in Hbits.
  subst bits.
  change (Z.shiftl (Z.land (valueOf 8 [255]) (Z.ones 3)) (5 - 3)) with 28
    in Hpadded.
  rewrite Hpadded in Hlenient, Hstrict.
  exists accumulator, result.
  split; [exact Hfor|].
  split; [exact Hvalue|].
  split; [exact Hlenient|].
  apply Hstrict. right. discriminate.
Defined.

Lemma encoder_size_check_and_version_byte_witness :
  exists code encoded payload,
    sizeCode 160 = Some code
    /\ versionByteOf (repeat 0 20) scripthash = Ok (8 + code)
    /\ hashToCashAddress CHARSET_cashaddr hexBytes
         "0000000000000000000000000000000000000000" scripthash
         "bitcoincash" (Some true)
       = Ok ("bitcoincash" ++ ":" ++ encoded)%string
    /\ decode CHARSET_cashaddr encoded = Ok payload
    /\ payloadOf hexBytes
         "0000000000000000000000000000000000000000" scripthash "bitcoincash"
       = Ok payload
    /\ convertBits (JS.slice_to_last payload 8) 5 8 (Some true)
       = Ok ((8 + code) :: repeat 0 20).
Proof.
  refine (proj2 (encoder_size_check_and_version_byte CHARSET_cashaddr hexBytes
                   _ hexBytes_bytes "0000000000000000000000000000000000000000"
                   scripthash "bitcoincash" (Some true)) _).
  - reflexivity.
  - left. reflexivity.
Defined.

Lemma candidate_prefix_resolution_witness :
  resolvePrefix CHARSET_cashaddr "qqqqqqqqqqqqqqqqqqqqqqqqqqqqqqqqqqfnhks603"
    ["bchtest"%string; "bitcoincash"%string]
  = Ok ("bitcoincash"%string, repeat 0 34 ++ [9; 19; 23; 22; 16; 26; 15; 17]).
Proof.
  apply (candidate_prefix_resolution CHARSET_cashaddr
           "qqqqqqqqqqqqqqqqqqqqqqqqqqqqqqqqqqfnhks603"
           ["bchtest"%string; "bitcoincash"%string]
           (repeat 0 34 ++ [9; 19; 23; 22; 16; 26; 15; 17]));
    vm_compute; reflexivity.
Defined.

Lemma decoding_ignores_case_witness :
  exists upper,
    JS.units upper
    = JS.toUpperCase "bitcoincash:qqqqqqqqqqqqqqqqqqqqqqqqqqqqqqqqqqfnhks603"
    /\ cashAddressToHash CHARSET_cashaddr upper []
       = Ok {| scriptHash := repeat 0 20; type := pubkeyhash |}
    /\ cashAddressToHash CHARSET_cashaddr
         (JS.toLowerCase "bitcoincash:qqqqqqqqqqqqqqqqqqqqqqqqqqqqqqqqqqfnhks603")
         []
       = Ok {| scriptHash := repeat 0 20; type := pubkeyhash |}.
Proof.
  apply (decoding_ignores_case CHARSET_cashaddr
           "bitcoincash:qqqqqqqqqqqqqqqqqqqqqqqqqqqqqqqqqqfnhks603" []);
    vm_compute; reflexivity.
Defined.

(** C8 as stated fails on a prefix with a letter whose upper-case form
    does not lower back to it.  The address with prefix U+00DF is in a
    single case and decodes; its upper-case form, with prefix SS, is in a
    single case too, and the decoder refuses it. *)
Lemma upper_case_breaks_on_sharp_s :
  hasSingleCase (String "223" ":qqqqqqqqqqqqqqqqqqqqqqqqqqqqqqqqqqj9zgwf24")
  = true
  /\ cashAddressToHash CHARSET_cashaddr
       (String "223" ":qqqqqqqqqqqqqqqqqqqqqqqqqqqqqqqqqqj9zgwf24") []
     = Ok {| scriptHash := repeat 0 20; type := pubkeyhash |}
  /\ JS.toUpperCase (String "223" ":qqqqqqqqqqqqqqqqqqqqqqqqqqqqqqqqqqj9zgwf24")
     = JS.units "SS:QQQQQQQQQQQQQQQQQQQQQQQQQQQQQQQQQQJ9ZGWF24"
  /\ hasSingleCase "SS:QQQQQQQQQQQQQQQQQQQQQQQQQQQQQQQQQQJ9ZGWF24" = true
  /\ cashAddressToHash CHARSET_cashaddr
       "SS:QQQQQQQQQQQQQQQQQQQQQQQQQQQQQQQQQQJ9ZGWF24" []
     = Throw InvalidChecksum
  /\ cashAddressToHash CHARSET_cashaddr
       (JS.toLowerCase
          (String "223" ":qqqqqqqqqqqqqqqqqqqqqqqqqqqqqqqqqqj9zgwf24")) []
     = Ok {| scriptHash := repeat 0 20; type := pubkeyhash |}.
Proof.
  repeat split; vm_compute; reflexivity.
Qed.

Lemma prefix_salt_low_five_bits_witness :
  (forall payload,
     validChecksum "bitcoincash" payload = validChecksum "BITCOINCASH" payload)
  /\ (forall scriptHash type,
        payloadOf hexBytes scriptHash type "bitcoincash"
        = payloadOf hexBytes scriptHash type "BITCOINCASH")
  /\ (forall scriptHash type,
        hashToCashAddress CHARSET_cashaddr hexBytes scriptHash type
          "bitcoincash" None
        = hashToCashAddress CHARSET_cashaddr hexBytes scriptHash type
            "BITCOINCASH" None).
Proof.
  apply (prefix_salt_low_five_bits CHARSET_cashaddr hexBytes
           "bitcoincash" "BITCOINCASH").
  repeat constructor.
Defined.
